(** * Non-neighbour connections (NNC): a shallow embedding of
      [opm/input/eclipse/EclipseState/Grid/NNC.cpp]

    The development follows the translation unit function by function:
    the index resolver ([global_index], [make_index_pair]), the adjacency
    classifier ([is_neighbor]), the three loaders run by the constructor
    ([load_input], [load_edit], [load_editr]) and the mutator [addNNC].

    Data: a [std::size_t] is a [Z] in [0, 2^64) with the wrap-around written
    out where the code converts or subtracts; a [double] is a primitive
    IEEE-754 binary64 float; a [std::vector] is a list, an iterator into it
    a position ([nat]); a [std::optional] is an [option].  The object under
    construction is threaded through the loaders explicitly.

    Library: [std::stable_sort], [std::lower_bound], [std::unique] and
    [std::set_difference] are written out.  [std::sort] is not stable and
    its result on equivalent elements is the implementation's; it is a
    parameter ([StdSort]) of which only the library's promise is known,
    and what is proved of the loaders is proved for every function that
    keeps the promise. *)

From Stdlib Require Import ZArith Floats String.
From Equations Require Import Equations.
From stdpp Require Import base list sorting.

Open Scope Z_scope.

(** ** Machine integers *)

(** [static_cast<std::size_t>] of a signed value, and unsigned arithmetic:
    reduction modulo [2^64]. *)
Definition to_size_t (z : Z) : Z := z mod 2 ^ 64.

(** ** External collaborators: grid and deck *)

(** The part of [EclipseGrid] the translation unit calls.  The class is
    declared elsewhere; its member functions are taken as they come. *)
Record EclipseGrid := mkEclipseGrid {
  getNX : Z;
  getNY : Z;
  getNZ : Z;
  cellActive : Z → Z → Z → bool;
  getGlobalIndex : Z → Z → Z → Z
}.

Record KeywordLocation := mkKeywordLocation {
  keyword : string;
  filename : string;
  lineno : Z
}.

(** A record of an NNC, EDITNNC or EDITNNCR keyword: items 0..5 are the
    integers I1 J1 K1 I2 J2 K2, item 6 is a double, read either raw
    ([get<double>(0)]) or converted to SI units ([getSIDouble(0)]). *)
Record DeckRecord := mkDeckRecord {
  item_I1 : Z;
  item_J1 : Z;
  item_K1 : Z;
  item_I2 : Z;
  item_J2 : Z;
  item_K2 : Z;
  item6_double : float;
  item6_SIDouble : float
}.

(** [record.getItem(n).get<int>(0)] for [n] in 0..5. *)
Definition getItem_int (record : DeckRecord) (n : nat) : Z :=
  match n with
  | 0%nat => item_I1 record
  | 1%nat => item_J1 record
  | 2%nat => item_K1 record
  | 3%nat => item_I2 record
  | 4%nat => item_J2 record
  | _ => item_K2 record
  end.

Record DeckKeyword := mkDeckKeyword {
  location : KeywordLocation;
  records : list DeckRecord
}.

(** The three keyword lists the constructor asks the deck for. *)
Record Deck := mkDeck {
  getKeywordList_NNC : list DeckKeyword;
  getKeywordList_EDITNNC : list DeckKeyword;
  getKeywordList_EDITNNCR : list DeckKeyword
}.

(** ** NNCdata *)

Record NNCdata := mkNNCdata {
  cell1 : Z;
  cell2 : Z;
  trans : float
}.

(** The key of an entry: its cell pair. *)
Definition key (d : NNCdata) : Z * Z := (cell1 d, cell2 d).

(** Modelled from the spec: [NNCdata::operator<] is declared in NNC.hpp,
    which is not among the sources.  The spec orders keys
    lexicographically (first index, then second index), sorts the
    replacement records with a "stable sort by key", purges by
    "set-difference by key" and inserts by "binary search on key".  Its
    data model also names the value as a tiebreak; the comments of
    [load_editr] exclude that: the entries of one cell pair are to keep
    their insertion order under the stable sort, and [std::unique] is to
    meet them side by side whatever their values.  The comparison is
    therefore the lexicographic one on [(cell1, cell2)], as [std::tie]
    gives it, and ignores [trans]. *)
Definition NNCdata_lt (a b : NNCdata) : bool :=
  (cell1 a <? cell1 b) || (negb (cell1 b <? cell1 a) && (cell2 a <? cell2 b)).

(** The predicate the code spells out wherever it compares cell pairs:
    [d1.cell1 == d2.cell1 && d1.cell2 == d2.cell2]. *)
Definition equality (d1 d2 : NNCdata) : bool :=
  (cell1 d1 =? cell1 d2) && (cell2 d1 =? cell2 d2).

(** [d.trans *= f]. *)
Definition scale (f : float) (d : NNCdata) : NNCdata :=
  mkNNCdata (cell1 d) (cell2 d) (trans d * f)%float.

(** ** Index resolver *)

Definition global_index (grid : EclipseGrid) (record : DeckRecord)
    (item_offset : nat) : option Z :=
  let i := to_size_t (getItem_int record (0 + item_offset) - 1) in
  let j := to_size_t (getItem_int record (1 + item_offset) - 1) in
  let k := to_size_t (getItem_int record (2 + item_offset) - 1) in
  if getNX grid <=? i then None
  else if getNY grid <=? j then None
  else if getNZ grid <=? k then None
  else if negb (cellActive grid i j k) then None
  else Some (to_size_t (getGlobalIndex grid i j k)).

Definition make_index_pair (grid : EclipseGrid) (record : DeckRecord)
    : option (Z * Z) :=
  match global_index grid record 0, global_index grid record 3 with
  | None, _ => None
  | Some _, None => None
  | Some g1, Some g2 => if g1 <? g2 then Some (g1, g2) else Some (g2, g1)
  end.

(** ** Adjacency classifier *)

Definition is_neighbor (grid : EclipseGrid) (g1 g2 : Z) : bool :=
  let diff := to_size_t (g2 - g1) in
  if diff =? 0 then true
  else if diff =? 1 then true
  else if diff =? getNX grid then true
  else if diff =? getNY grid then true
  else false.

(** ** Standard algorithms *)

(** [std::stable_sort] under [operator<], as a stable insertion sort: an
    element is placed in front of the first element that is not smaller. *)
Fixpoint sort_insert (x : NNCdata) (l : list NNCdata) : list NNCdata :=
  match l with
  | [] => [x]
  | y :: l' => if NNCdata_lt y x then y :: sort_insert x l' else x :: y :: l'
  end.

Definition stable_sort (l : list NNCdata) : list NNCdata :=
  foldr sort_insert [] l.

(** [std::sort] under [operator<].  The library promises a rearrangement
    of the range in which no element is smaller than one before it, and
    nothing on the order in which equivalent elements come out: the
    implementations are not stable and differ from one another.  The
    loaders are written over any function that keeps the promise. *)
Class StdSort := {
  sort : list NNCdata → list NNCdata;
  sort_perm : ∀ l, sort l ≡ₚ l;
  sort_ordered : ∀ l, StronglySorted (λ a b, NNCdata_lt b a = false) (sort l)
}.

(** [std::lower_bound(first, first + len, val)]: the halving loop over
    positions of [l]. *)
Equations? lower_bound_loop (l : list NNCdata) (val : NNCdata)
    (first len : nat) : nat by wf len lt :=
  lower_bound_loop l val first 0 := first;
  lower_bound_loop l val first (S n)
    with l !! (first + Nat.div2 (S n))%nat => {
    | Some middle with NNCdata_lt middle val => {
      | true := lower_bound_loop l val (first + Nat.div2 (S n) + 1)
                                 (S n - Nat.div2 (S n) - 1);
      | false := lower_bound_loop l val first (Nat.div2 (S n)) };
    | None := first }.
Proof.
  all: pose proof (Nat.lt_div2 (S n) ltac:(lia)) as Hhalf;
    simpl in Hhalf |- *; lia.
Qed.

Definition lower_bound (l : list NNCdata) (val : NNCdata) : nat :=
  lower_bound_loop l val 0 (length l).

(** [v.insert(v.begin() + pos, x)]. *)
Definition insert_at (pos : nat) (x : NNCdata) (l : list NNCdata)
    : list NNCdata :=
  take pos l ++ x :: drop pos l.

(** [std::unique] with the predicate [equality]: an element is kept when it
    differs from the last element kept. *)
Fixpoint unique_from (kept : NNCdata) (l : list NNCdata) : list NNCdata :=
  match l with
  | [] => []
  | x :: l' =>
      if equality kept x then unique_from kept l'
      else x :: unique_from x l'
  end.

Definition unique (l : list NNCdata) : list NNCdata :=
  match l with
  | [] => []
  | x :: l' => x :: unique_from x l'
  end.

(** [std::set_difference] of two ranges under [operator<]. *)
Fixpoint set_difference (l1 : list NNCdata) : list NNCdata → list NNCdata :=
  match l1 with
  | [] => λ _, []
  | x :: l1' =>
      fix against (l2 : list NNCdata) : list NNCdata :=
        match l2 with
        | [] => x :: l1'
        | y :: l2' =>
            if NNCdata_lt x y then x :: set_difference l1' l2
            else if NNCdata_lt y x then against l2'
            else set_difference l1' l2'
        end
  end.

(** ** The NNC object *)

Record NNC := mkNNC {
  m_input : list NNCdata;
  m_edit : list NNCdata;
  m_editr : list NNCdata;
  m_nnc_location : option KeywordLocation;
  m_edit_location : option KeywordLocation;
  m_editr_location : option KeywordLocation
}.

Definition set_m_input (s : NNC) (l : list NNCdata) : NNC :=
  mkNNC l (m_edit s) (m_editr s)
        (m_nnc_location s) (m_edit_location s) (m_editr_location s).

(** [if (!loc) loc = keyword.location()]. *)
Definition first_location (loc : option KeywordLocation) (kw : DeckKeyword)
    : option KeywordLocation :=
  match loc with
  | Some _ => loc
  | None => Some (location kw)
  end.

(** The default-constructed object. *)
Definition NNC_default : NNC := mkNNC [] [] [] None None None.

(** ** load_input *)

Definition load_input_record (grid : EclipseGrid) (input : list NNCdata)
    (record : DeckRecord) : list NNCdata :=
  match make_index_pair grid record with
  | None => input
  | Some (g1, g2) => input ++ [mkNNCdata g1 g2 (item6_SIDouble record)]
  end.

Definition load_input_keyword (grid : EclipseGrid) (s : NNC)
    (kw : DeckKeyword) : NNC :=
  mkNNC (foldl (load_input_record grid) (m_input s) (records kw))
        (m_edit s) (m_editr s)
        (first_location (m_nnc_location s) kw)
        (m_edit_location s) (m_editr_location s).

Definition load_input `{!StdSort} (grid : EclipseGrid) (deck : Deck)
    (s : NNC) : NNC :=
  let s' := foldl (load_input_keyword grid) s (getKeywordList_NNC deck) in
  set_m_input s' (sort (m_input s')).

(** ** load_edit *)

(** The body of the record loop: what a record appends to [nnc_edit]. *)
Definition load_edit_record (grid : EclipseGrid) (nnc_edit : list NNCdata)
    (record : DeckRecord) : list NNCdata :=
  let tran_mult := item6_double record in
  if (tran_mult =? 1)%float then nnc_edit
  else
    match make_index_pair grid record with
    | None => nnc_edit
    | Some (g1, g2) =>
        if is_neighbor grid g1 g2 then nnc_edit
        else nnc_edit ++ [mkNNCdata g1 g2 tran_mult]
    end.

Definition load_edit_keyword (grid : EclipseGrid)
    (st : list NNCdata * option KeywordLocation) (kw : DeckKeyword)
    : list NNCdata * option KeywordLocation :=
  (foldl (load_edit_record grid) st.1 (records kw), first_location st.2 kw).

(** [NNC::add_edit], on the vector [m_edit]. *)
Fixpoint add_edit (edit : list NNCdata) (edit_node : NNCdata)
    : list NNCdata :=
  match edit with
  | [] => [edit_node]
  | [back] =>
      if equality back edit_node then [scale (trans edit_node) back]
      else [back; edit_node]
  | x :: rest => x :: add_edit rest edit_node
  end.

(** The [while] loop of the merge: scales the entries from [current_input]
    on while they carry the edit's cell pair.  At most
    [length input - current_input] rounds can run, which is the fuel the
    caller gives. *)
Fixpoint scale_run (fuel : nat) (input : list NNCdata) (current_input : nat)
    (current_edit : NNCdata) (edit_processed : bool)
    : list NNCdata * nat * bool :=
  match fuel with
  | O => (input, current_input, edit_processed)
  | S fuel' =>
      match input !! current_input with
      | None => (input, current_input, edit_processed)
      | Some d =>
          if equality d current_edit then
            scale_run fuel'
              (alter (scale (trans current_edit)) current_input input)
              (S current_input) current_edit true
          else (input, current_input, edit_processed)
      end
  end.

(** State of the merge loop: [m_input], the iterator [current_input] and
    [m_edit]. *)
Record merge_state := mkMerge {
  ms_input : list NNCdata;
  ms_current : nat;
  ms_edit : list NNCdata
}.

(** The tail of the loop body, from [bool edit_processed = false] on. *)
Definition apply_edit (input : list NNCdata) (current_input : nat)
    (edit : list NNCdata) (current_edit : NNCdata) : merge_state :=
  let '(input', current_input', edit_processed) :=
    scale_run (length input - current_input) input current_input
              current_edit false in
  if edit_processed then mkMerge input' current_input' edit
  else mkMerge input' current_input' (add_edit edit current_edit).

(** One round of [for (const auto& current_edit : nnc_edit)]. *)
Definition merge_step (st : merge_state) (current_edit : NNCdata)
    : merge_state :=
  let input := ms_input st in
  let current_input := ms_current st in
  if (current_input =? length input)%nat then
    mkMerge input current_input (add_edit (ms_edit st) current_edit)
  else
    match input !! current_input with
    | None => st (* not reached: the iterator is not at the end *)
    | Some d =>
        if negb (cell1 d =? cell1 current_edit)
           || negb (cell2 d =? cell2 current_edit)
        then
          let current_input :=
            lower_bound input
              (mkNNCdata (cell1 current_edit) (cell2 current_edit) 0%float) in
          if (current_input =? length input)%nat then
            mkMerge input current_input (add_edit (ms_edit st) current_edit)
          else apply_edit input current_input (ms_edit st) current_edit
        else apply_edit input current_input (ms_edit st) current_edit
    end.

(** The surviving multiplicative edits, in deck order, and the location of
    the first EDITNNC keyword. *)
Definition collect_edit (grid : EclipseGrid) (deck : Deck)
    (loc : option KeywordLocation)
    : list NNCdata * option KeywordLocation :=
  foldl (load_edit_keyword grid) ([], loc) (getKeywordList_EDITNNC deck).

Definition load_edit `{!StdSort} (grid : EclipseGrid) (deck : Deck)
    (s : NNC) : NNC :=
  let '(nnc_edit, loc) := collect_edit grid deck (m_edit_location s) in
  let nnc_edit := sort nnc_edit in
  let st := foldl merge_step (mkMerge (m_input s) 0 (m_edit s)) nnc_edit in
  mkNNC (ms_input st) (ms_edit st) (m_editr s)
        (m_nnc_location s) loc (m_editr_location s).

(** ** load_editr *)

(** The body of the record loop: [emplace_front] on the deque. *)
Definition load_editr_record (grid : EclipseGrid) (nnc_editr : list NNCdata)
    (record : DeckRecord) : list NNCdata :=
  match make_index_pair grid record with
  | None => nnc_editr
  | Some (g1, g2) =>
      if is_neighbor grid g1 g2 then nnc_editr
      else mkNNCdata g1 g2 (item6_SIDouble record) :: nnc_editr
  end.

Definition load_editr_keyword (grid : EclipseGrid)
    (st : list NNCdata * option KeywordLocation) (kw : DeckKeyword)
    : list NNCdata * option KeywordLocation :=
  match records kw with
  | [] => st
  | _ => (foldl (load_editr_record grid) st.1 (records kw),
          first_location st.2 kw)
  end.

Definition collect_editr (grid : EclipseGrid) (deck : Deck)
    (loc : option KeywordLocation)
    : list NNCdata * option KeywordLocation :=
  foldl (load_editr_keyword grid) ([], loc) (getKeywordList_EDITNNCR deck).

Definition load_editr (grid : EclipseGrid) (deck : Deck) (s : NNC) : NNC :=
  match getKeywordList_EDITNNCR deck with
  | [] => s
  | _ =>
      let '(nnc_editr, loc) := collect_editr grid deck (m_editr_location s) in
      match nnc_editr with
      | [] =>
          mkNNC (m_input s) (m_edit s) (m_editr s)
                (m_nnc_location s) (m_edit_location s) loc
      | _ =>
          let nnc_editr := unique (stable_sort nnc_editr) in
          mkNNC (m_input s) (set_difference (m_edit s) nnc_editr) nnc_editr
                (m_nnc_location s) (m_edit_location s) loc
      end
  end.

(** ** Constructor and mutator *)

Definition NNC_ctor `{!StdSort} (grid : EclipseGrid) (deck : Deck) : NNC :=
  load_editr grid deck (load_edit grid deck (load_input grid deck NNC_default)).

(** [NNC::addNNC]: the call with [cell1 > cell2] re-enters with the cells
    swapped; the measure is what is left of [cell1 - cell2]. *)
Equations? addNNC (s : NNC) (c1 c2 : Z) (t : float) : bool * NNC
    by wf (Z.to_nat (c1 - c2)) lt :=
  addNNC s c1 c2 t with decide (c1 > c2) => {
    | left _ := addNNC s c2 c1 t;
    | right _ :=
        let nnc := mkNNCdata c1 c2 t in
        let insert_iter := lower_bound (m_input s) nnc in
        (true, set_m_input s (insert_at insert_iter nnc (m_input s))) }.
Proof. lia. Qed.

(** ** A small grid and deck to run the model on *)

Module Sample.

(** 3 x 3 x 1, every cell active, global index [i + 3 j + 9 k]. *)
Definition grid : EclipseGrid :=
  mkEclipseGrid 3 3 1 (λ _ _ _, true) (λ i j k, i + 3 * j + 9 * k).

Definition loc (kw : string) (line : Z) : KeywordLocation :=
  mkKeywordLocation kw "CASE.DATA" line.

Definition rec (i1 j1 k1 i2 j2 k2 : Z) (v : float) : DeckRecord :=
  mkDeckRecord i1 j1 k1 i2 j2 k2 v v.

(** A base connection 0-8 of value 5, an edit of factor 2 on it, a
    replacement on the adjacent pair 0-1. *)
Definition deck : Deck :=
  mkDeck [mkDeckKeyword (loc "NNC" 10) [rec 1 1 1 3 3 1 5]]
         [mkDeckKeyword (loc "EDITNNC" 20) [rec 1 1 1 3 3 1 2]]
         [mkDeckKeyword (loc "EDITNNCR" 30) [rec 1 1 1 2 1 1 9]].

(** Cell pairs of the grid used below: 0-8, 1-7 and 2-6 are not adjacent,
    0-1 is; the last record addresses one cell twice. *)
Definition rec_0_8 : float → DeckRecord := rec 1 1 1 3 3 1.
Definition rec_1_7 : float → DeckRecord := rec 2 1 1 2 3 1.
Definition rec_2_6 : float → DeckRecord := rec 3 1 1 1 3 1.
Definition rec_0_1 : float → DeckRecord := rec 1 1 1 2 1 1.
Definition rec_4_4 : float → DeckRecord := rec 2 2 1 2 2 1.

Definition NNC_kw (rs : list DeckRecord) : DeckKeyword :=
  mkDeckKeyword (loc "NNC" 10) rs.
Definition EDITNNC_kw (rs : list DeckRecord) : DeckKeyword :=
  mkDeckKeyword (loc "EDITNNC" 20) rs.
Definition EDITNNCR_kw (line : Z) (rs : list DeckRecord) : DeckKeyword :=
  mkDeckKeyword (loc "EDITNNCR" line) rs.

(** Two edits of the one connection 0-8, which ends [m_input]. *)
Definition deck_two_edits : Deck :=
  mkDeck [NNC_kw [rec_0_8 5]] [EDITNNC_kw [rec_0_8 2; rec_0_8 3]] [].

(** The same two edits with a connection 1-7 behind the edited one. *)
Definition deck_two_edits_inner : Deck :=
  mkDeck [NNC_kw [rec_0_8 5; rec_1_7 5]]
         [EDITNNC_kw [rec_0_8 2; rec_0_8 3]] [].

(** Two connections 0-8 and one edit of that key. *)
Definition deck_two_connections : Deck :=
  mkDeck [NNC_kw [rec_0_8 5; rec_1_7 1; rec_0_8 6]]
         [EDITNNC_kw [rec_2_6 4; rec_0_8 2]] [].

(** A base record whose two triples resolve to the same cell. *)
Definition deck_self_pair : Deck :=
  mkDeck [NNC_kw [rec_4_4 5]] [] [].

(** An edit and a replacement of the same pair, with different values. *)
Definition deck_purge : Deck :=
  mkDeck [] [EDITNNC_kw [rec_0_8 2; rec_1_7 3]] [EDITNNCR_kw 30 [rec_0_8 7]].

(** Three replacements of 0-8 across two keywords, others in between. *)
Definition deck_last_wins : Deck :=
  mkDeck [] []
         [EDITNNCR_kw 30 [rec_0_8 1.5; rec_1_7 4; rec_0_8 2.5];
          EDITNNCR_kw 40 [rec_1_7 5; rec_0_8 3.5; rec_2_6 6]].

(** Three replacements of the adjacent pair 0-1. *)
Definition deck_adjacent_editr : Deck :=
  mkDeck [] [] [EDITNNCR_kw 30 [rec_0_1 1.5; rec_0_1 2.5; rec_0_1 3.5]].

End Sample.

(** ** Order on keys *)

(** Lexicographic order on cell pairs. *)
Definition key_lt (k1 k2 : Z * Z) : Prop :=
  k1.1 < k2.1 ∨ (k1.1 = k2.1 ∧ k1.2 < k2.2).

Definition key_le (k1 k2 : Z * Z) : Prop :=
  k1.1 < k2.1 ∨ (k1.1 = k2.1 ∧ k1.2 ≤ k2.2).

Definition has_key (K : Z * Z) (d : NNCdata) : Prop := key d = K.

Global Instance has_key_dec K d : Decision (has_key K d).
Proof. unfold has_key. apply _. Defined.

(** Non-decreasing, and strictly increasing, by key. *)
Definition sorted_by_key (l : list NNCdata) : Prop :=
  StronglySorted (λ a b, key_le (key a) (key b)) l.

Definition strictly_sorted_by_key (l : list NNCdata) : Prop :=
  StronglySorted (λ a b, key_lt (key a) (key b)) l.

Ltac bool_cases :=
  repeat match goal with
  | |- context [?a <? ?b] => destruct (Z.ltb_spec a b)
  | |- context [?a <=? ?b] => destruct (Z.leb_spec a b)
  | |- context [?a =? ?b] => destruct (Z.eqb_spec a b)
  | H : context [?a <? ?b] |- _ => destruct (Z.ltb_spec a b)
  | H : context [?a <=? ?b] |- _ => destruct (Z.leb_spec a b)
  | H : context [?a =? ?b] |- _ => destruct (Z.eqb_spec a b)
  end.

Ltac key_solve :=
  unfold has_key, key_le, key_lt, NNCdata_lt, equality, key, scale in *;
  repeat match goal with
  | d : NNCdata |- _ => destruct d
  | k : (Z * Z)%type |- _ => destruct k
  end;
  simpl in *; simplify_eq; bool_cases; simpl in *;
  first [ done | lia | congruence | f_equal; lia | intros ?; simplify_eq; lia ].

(** ** Two functions that keep the promise of std::sort *)

(** The insertion sort, which leaves equivalent elements in the order it
    found them, as the library's own insertion sort on a short range
    does.  The examples below run the loaders with it. *)
Global Instance insertion_sort : StdSort.
Proof.
  assert (∀ x l, sort_insert x l ≡ₚ x :: l) as Hperm.
  { intros x l. induction l as [|y l IH]; simpl; [done|].
    destruct (NNCdata_lt y x); [|done]. rewrite IH. apply Permutation_swap. }
  refine {| sort := stable_sort |}.
  - intros l. induction l as [|x l IH]; simpl; [done|].
    by rewrite Hperm, IH.
  - assert (∀ a b, NNCdata_lt a b = true → NNCdata_lt b a = false) as Hasym
      by (intros; key_solve).
    assert (∀ a b c, NNCdata_lt b a = false → NNCdata_lt c b = false →
                     NNCdata_lt c a = false) as Htrans
      by (intros; key_solve).
    intros l. induction l as [|x l IH]; simpl; [constructor|].
    revert IH. generalize (stable_sort l). clear l.
    induction 1 as [|y l Hl IH Hy]; simpl; [repeat constructor|].
    destruct (NNCdata_lt y x) eqn:Hlt.
    + constructor; [done|]. rewrite Hperm. constructor; [by apply Hasym|done].
    + constructor; [by constructor|]. constructor; [done|].
      eapply Forall_impl; [exact Hy|]. simpl. intros z Hz.
      by apply (Htrans x y z).
Defined.

(** Another one, which leaves equivalent elements in the reverse of the
    order it found them. *)
Definition reversing_sort : StdSort.
Proof.
  refine {| sort l := stable_sort (reverse l) |}.
  - intros l. etrans; [apply (sort_perm (StdSort := insertion_sort))|].
    apply reverse_Permutation.
  - intros l. apply (sort_ordered (StdSort := insertion_sort)).
Defined.

(** ** Predicates of the merge *)

(** What stops the loop: the vector ends, or the next entry has another
    key. *)
Definition stops_at (e : NNCdata) (q : list NNCdata) : Prop :=
  ∀ d, head q = Some d → key d ≠ key e.

(** What holds between two rounds: [m_input] is sorted, the iterator is
    inside the vector or at its end, and it rests at the start of a run:
    every entry before it has a smaller key than the entry under it. *)
Record merge_inv (st : merge_state) : Prop := {
  inv_sorted : sorted_by_key (ms_input st);
  inv_range : (ms_current st ≤ length (ms_input st))%nat;
  inv_boundary : ∀ i d d',
    (i < ms_current st)%nat → ms_input st !! i = Some d →
    ms_input st !! ms_current st = Some d' → key_lt (key d) (key d')
}.

(** ** Keys the loaders let through *)

(** A key some record resolves to. *)
Definition resolved (grid : EclipseGrid) (k : Z * Z) : Prop :=
  ∃ record, make_index_pair grid record = Some k.

(** A key the edit and replacement loaders let through. *)
Definition overlay_key (grid : EclipseGrid) (k : Z * Z) : Prop :=
  resolved grid k ∧ is_neighbor grid k.1 k.2 = false.

(** ** The constructor, stage by stage *)

(** The object after [load_input], that is, at merge time. *)
Definition stage_input `{!StdSort} (grid : EclipseGrid) (deck : Deck)
    : NNC :=
  load_input grid deck NNC_default.

(** The object after [load_edit]. *)
Definition stage_edit `{!StdSort} (grid : EclipseGrid) (deck : Deck)
    : NNC :=
  load_edit grid deck (stage_input grid deck).

(** The surviving multiplicative edits, in deck order. *)
Definition surviving_edits (grid : EclipseGrid) (deck : Deck)
    : list NNCdata :=
  (collect_edit grid deck None).1.

(** The replacement entries as the deque holds them before the sort. *)
Definition surviving_editr (grid : EclipseGrid) (deck : Deck)
    : list NNCdata :=
  (collect_editr grid deck None).1.

(** The record resolves to the key [K]. *)
Definition resolves_to (grid : EclipseGrid) (K : Z * Z) (r : DeckRecord)
    : Prop :=
  make_index_pair grid r = Some K.

Global Instance resolves_to_dec grid K r : Decision (resolves_to grid K r).
Proof. unfold resolves_to. apply _. Defined.

(** The entry a replacement record of key [K] puts on the deque. *)
Definition replacement_entry (K : Z * Z) (r : DeckRecord) : NNCdata :=
  mkNNCdata K.1 K.2 (item6_SIDouble r).

(** The records of all EDITNNCR keywords, in deck order. *)
Definition EDITNNCR_records (deck : Deck) : list DeckRecord :=
  mjoin (records <$> getKeywordList_EDITNNCR deck).

(** ** States of the object *)

(** What a caller can hold: a constructed object, then any number of
    [addNNC] calls on it. *)
Inductive reachable `{!StdSort} : NNC → Prop :=
  | reachable_ctor grid deck : reachable (NNC_ctor grid deck)
  | reachable_addNNC s c1 c2 t :
      reachable s → reachable (addNNC s c1 c2 t).2.

(** Every stored key has its first cell strictly below its second. *)
Definition keys_strict (s : NNC) : Prop :=
  Forall (λ d, cell1 d < cell2 d) (m_input s) ∧
  Forall (λ d, cell1 d < cell2 d) (m_edit s) ∧
  Forall (λ d, cell1 d < cell2 d) (m_editr s).

(** The keys of the connections are canonical, those of the two overlays
    strictly so. *)
Definition keys_canonical (s : NNC) : Prop :=
  Forall (λ d, cell1 d ≤ cell2 d) (m_input s) ∧
  Forall (λ d, cell1 d < cell2 d) (m_edit s) ∧
  Forall (λ d, cell1 d < cell2 d) (m_editr s).

(** ** Well-formed input of the resolver *)

(** A coordinate item is an [int] whose predecessor is an [int]. *)
Definition int_coord (c : Z) : Prop := - 2 ^ 31 < c < 2 ^ 31.

Definition record_coords_ok (record : DeckRecord) : Prop :=
  int_coord (item_I1 record) ∧ int_coord (item_J1 record) ∧
  int_coord (item_K1 record) ∧ int_coord (item_I2 record) ∧
  int_coord (item_J2 record) ∧ int_coord (item_K2 record).

(** The extents leave the upper half of [std::size_t] free; any extent
    that fits an [int] does. *)
Definition grid_extents_ok (grid : EclipseGrid) : Prop :=
  getNX grid ≤ 2 ^ 63 ∧ getNY grid ≤ 2 ^ 63 ∧ getNZ grid ≤ 2 ^ 63.

(** Some coordinate of the 1-based triple, taken 0-based, lies outside
    [0, extent) of its axis. *)
Definition out_of_bounds (grid : EclipseGrid) (i j k : Z) : Prop :=
  ¬ (0 ≤ i - 1 < getNX grid) ∨ ¬ (0 ≤ j - 1 < getNY grid) ∨
  ¬ (0 ≤ k - 1 < getNZ grid).

(** The cell the 1-based triple addresses is inactive. *)
Definition inactive (grid : EclipseGrid) (i j k : Z) : Prop :=
  cellActive grid (i - 1) (j - 1) (k - 1) = false.

(** The global index of the cell the 1-based triple addresses. *)
Definition cell_index (grid : EclipseGrid) (i j k : Z) : Z :=
  to_size_t (getGlobalIndex grid (i - 1) (j - 1) (k - 1)).

(** What makes a record unresolvable: a triple out of bounds or on an
    inactive cell. *)
Definition unresolvable (grid : EclipseGrid) (record : DeckRecord) : Prop :=
  (out_of_bounds grid (item_I1 record) (item_J1 record) (item_K1 record)
   ∨ inactive grid (item_I1 record) (item_J1 record) (item_K1 record))
  ∨ (out_of_bounds grid (item_I2 record) (item_J2 record) (item_K2 record)
     ∨ inactive grid (item_I2 record) (item_J2 record) (item_K2 record)).

(** The two global indices of a record, smaller first. *)
Definition canonical_pair (grid : EclipseGrid) (record : DeckRecord)
    : Z * Z :=
  let g1 :=
    cell_index grid (item_I1 record) (item_J1 record) (item_K1 record) in
  let g2 :=
    cell_index grid (item_I2 record) (item_J2 record) (item_K2 record) in
  (Z.min g1 g2, Z.max g1 g2).

(** The difference of the pair is none of the four adjacent ones. *)
Definition non_adjacent (grid : EclipseGrid) (d : NNCdata) : Prop :=
  cell2 d - cell1 d ≠ 0 ∧ cell2 d - cell1 d ≠ 1 ∧
  cell2 d - cell1 d ≠ getNX grid ∧ cell2 d - cell1 d ≠ getNY grid.

(** ** Provenance accessors *)

(** [NNC::input_location], [NNC::edit_location], [NNC::editr_location]:
    the location recorded for the category, whatever entry is asked for.
    The value-initialised [KeywordLocation{}] they fall back on is declared
    with the class, outside the translation unit; it is taken as given. *)
Definition input_location (empty_location : KeywordLocation) (s : NNC)
    (nnc : NNCdata) : KeywordLocation :=
  match m_nnc_location s with
  | Some l => l
  | None => empty_location
  end.

Definition edit_location (empty_location : KeywordLocation) (s : NNC)
    (nnc : NNCdata) : KeywordLocation :=
  match m_edit_location s with
  | Some l => l
  | None => empty_location
  end.

Definition editr_location (empty_location : KeywordLocation) (s : NNC)
    (nnc : NNCdata) : KeywordLocation :=
  match m_editr_location s with
  | Some l => l
  | None => empty_location
  end.

(** ** Decks derived from a deck *)

(** The records of all NNC keywords, in deck order. *)
Definition NNC_records (deck : Deck) : list DeckRecord :=
  mjoin (records <$> getKeywordList_NNC deck).

(** The entry a base record appends to [m_input], if it resolves. *)
Definition input_entry (grid : EclipseGrid) (record : DeckRecord)
    : option NNCdata :=
  (λ k, mkNNCdata k.1 k.2 (item6_SIDouble record))
    <$> make_index_pair grid record.

(** The records of all EDITNNC keywords, in deck order. *)
Definition EDITNNC_records (deck : Deck) : list DeckRecord :=
  mjoin (records <$> getKeywordList_EDITNNC deck).

(** The entry an edit record appends to [nnc_edit]: its canonical pair
    and its multiplier as read, if the multiplier is not 1, the record
    resolves and its pair is not classified adjacent. *)
Definition edit_entry (grid : EclipseGrid) (record : DeckRecord)
    : option NNCdata :=
  if (item6_double record =? 1)%float then None
  else
    match make_index_pair grid record with
    | None => None
    | Some (g1, g2) =>
        if is_neighbor grid g1 g2 then None
        else Some (mkNNCdata g1 g2 (item6_double record))
    end.

(** The record with its two coordinate triples exchanged. *)
Definition swap_triples (r : DeckRecord) : DeckRecord :=
  mkDeckRecord (item_I2 r) (item_J2 r) (item_K2 r)
               (item_I1 r) (item_J1 r) (item_K1 r)
               (item6_double r) (item6_SIDouble r).

(** The triples exchanged in the records [sel] picks. *)
Definition swap_where (sel : DeckRecord → bool) (r : DeckRecord)
    : DeckRecord :=
  if sel r then swap_triples r else r.

Definition keyword_map_records (f : list DeckRecord → list DeckRecord)
    (kw : DeckKeyword) : DeckKeyword :=
  mkDeckKeyword (location kw) (f (records kw)).

(** The deck with [f] applied to every record of every keyword. *)
Definition deck_map_records (f : DeckRecord → DeckRecord) (deck : Deck)
    : Deck :=
  mkDeck (keyword_map_records (fmap f) <$> getKeywordList_NNC deck)
         (keyword_map_records (fmap f) <$> getKeywordList_EDITNNC deck)
         (keyword_map_records (fmap f) <$> getKeywordList_EDITNNCR deck).

(** The deck without the EDITNNC records whose multiplier is 1. *)
Definition drop_identity_edits (deck : Deck) : Deck :=
  mkDeck (getKeywordList_NNC deck)
         (keyword_map_records
            (filter (λ r, (item6_double r =? 1)%float = false))
            <$> getKeywordList_EDITNNC deck)
         (getKeywordList_EDITNNCR deck).

(** The deck without its EDITNNCR keywords. *)
Definition without_EDITNNCR (deck : Deck) : Deck :=
  mkDeck (getKeywordList_NNC deck) (getKeywordList_EDITNNC deck) [].

(** The keyword holds at least one record. *)
Definition has_records (kw : DeckKeyword) : Prop :=
  length (records kw) ≠ 0%nat.

Global Instance has_records_dec kw : Decision (has_records kw).
Proof. unfold has_records. apply _. Defined.

(** A location once recorded stays; otherwise the first keyword's is
    taken. *)
Definition first_of (loc : option KeywordLocation) (kws : list DeckKeyword)
    : option KeywordLocation :=
  match loc with
  | Some l => Some l
  | None => location <$> head kws
  end.

(** ** Values the edits build *)

(** The entries of the edit records, as [std::sort] leaves them: the
    edits in the order in which the merge meets them. *)
Definition sorted_edits `{!StdSort} (grid : EclipseGrid) (deck : Deck)
    : list NNCdata :=
  sort (omap (edit_entry grid) (EDITNNC_records deck)).

(** The value [t] multiplied in turn by the multipliers of the edits
    [es], the first of them first: [((t * f1) * f2) * ...]. *)
Definition multiplied_by (es : list NNCdata) (t : float) : float :=
  foldl (λ t e, (t * trans e)%float) t es.

(** The entries [l], each with its cells as they are and its value
    multiplied in turn by the multipliers of [es]. *)
Definition scaled_by (es : list NNCdata) (l : list NNCdata)
    : list NNCdata :=
  (λ d, mkNNCdata (cell1 d) (cell2 d) (multiplied_by es (trans d))) <$> l.

(** The one overlay entry the edits [es] of one key build: the cells of
    the first edit, and its multiplier multiplied in turn by each later
    one. *)
Definition accumulated (es : list NNCdata) : list NNCdata :=
  match es with
  | [] => []
  | e :: es' => [mkNNCdata (cell1 e) (cell2 e) (multiplied_by es' (trans e))]
  end.

(** ** More decks to run the model on *)

Module Decks.

(** Three edits of the pair 2-6, which has no connection, one edit of
    the connection 0-8, two replacements of the pair 1-7. *)
Definition repeated_edits : Deck :=
  mkDeck [Sample.NNC_kw [Sample.rec_0_8 5]]
         [Sample.EDITNNC_kw [Sample.rec_2_6 2; Sample.rec_0_8 5;
                             Sample.rec_2_6 3; Sample.rec_2_6 0.5]]
         [Sample.EDITNNCR_kw 30 [Sample.rec_1_7 4; Sample.rec_1_7 6]].

(** An empty EDITNNCR keyword in front of one whose only record is an
    adjacent pair. *)
Definition empty_keyword_first : Deck :=
  mkDeck [] [] [Sample.EDITNNCR_kw 30 [];
                Sample.EDITNNCR_kw 40 [Sample.rec_0_1 9]].

(** Identity edits, an edit of factor 2, and records with their larger
    cell first. *)
Definition mixed : Deck :=
  mkDeck [Sample.NNC_kw [Sample.rec_0_8 5; Sample.rec 2 3 1 2 1 1 7]]
         [Sample.EDITNNC_kw [Sample.rec_0_8 1; Sample.rec_1_7 2;
                             Sample.rec_2_6 1]]
         [Sample.EDITNNCR_kw 30 [Sample.rec 1 3 1 3 1 1 4]].

(** Three edits of the connection 0-8 and the same three of the pair
    2-6, which has no connection; the product of the first two
    multipliers overflows. *)
Definition overflowing_edits : Deck :=
  mkDeck [Sample.NNC_kw [Sample.rec_0_8 1; Sample.rec_1_7 1]]
         [Sample.EDITNNC_kw
            [Sample.rec_0_8 0x1p+600; Sample.rec_0_8 0x1p+600;
             Sample.rec_0_8 0x1p-600; Sample.rec_2_6 0x1p+600;
             Sample.rec_2_6 0x1p+600; Sample.rec_2_6 0x1p-600]]
         [].

End Decks.

(** * Properties *)

(** The model runs: a base connection 0-8, an edit that doubles it, and a
    replacement of the adjacent pair 0-1 that is dropped. *)
Example NNC_ctor_end_to_end :
  NNC_ctor Sample.grid Sample.deck =
  mkNNC [mkNNCdata 0 8 10] [] []
        (Some (Sample.loc "NNC" 10)) (Some (Sample.loc "EDITNNC" 20))
        (Some (Sample.loc "EDITNNCR" 30)).
Proof. vm_compute. reflexivity. Qed.

(** ** Facts on the key order *)

Section key_order.
Implicit Types a b c : NNCdata.

Lemma NNCdata_lt_true a b :
  NNCdata_lt a b = true ↔ key_lt (key a) (key b).
Proof. split; intros; key_solve. Qed.

Lemma NNCdata_lt_false a b :
  NNCdata_lt a b = false ↔ key_le (key b) (key a).
Proof. split; intros; key_solve. Qed.

Lemma equality_true a b : equality a b = true ↔ key a = key b.
Proof. split; intros; key_solve. Qed.

Lemma equality_false a b : equality a b = false ↔ key a ≠ key b.
Proof. split; intros; key_solve. Qed.

Lemma key_scale f a : key (scale f a) = key a.
Proof. done. Qed.

Lemma key_lt_le k1 k2 : key_lt k1 k2 → key_le k1 k2.
Proof. intros; key_solve. Qed.

Lemma key_le_refl k : key_le k k.
Proof. key_solve. Qed.

Lemma key_lt_irrefl k : ¬ key_lt k k.
Proof. intros ?; key_solve. Qed.

Lemma key_le_trans k1 k2 k3 : key_le k1 k2 → key_le k2 k3 → key_le k1 k3.
Proof. intros; key_solve. Qed.

Lemma key_lt_le_trans k1 k2 k3 : key_lt k1 k2 → key_le k2 k3 → key_lt k1 k3.
Proof. intros; key_solve. Qed.

Lemma key_le_lt_trans k1 k2 k3 : key_le k1 k2 → key_lt k2 k3 → key_lt k1 k3.
Proof. intros; key_solve. Qed.

Lemma key_lt_trans' k1 k2 k3 : key_lt k1 k2 → key_lt k2 k3 → key_lt k1 k3.
Proof. intros; key_solve. Qed.

Lemma key_le_antisym k1 k2 : key_le k1 k2 → key_le k2 k1 → k1 = k2.
Proof. intros; key_solve. Qed.

Lemma key_le_lt_cases k1 k2 : key_le k1 k2 → k1 = k2 ∨ key_lt k1 k2.
Proof.
  destruct k1 as [a1 b1], k2 as [a2 b2]. unfold key_le, key_lt. simpl.
  intros H. destruct (decide (a1 = a2 ∧ b1 = b2)) as [[-> ->]|];
    [by left | right; lia].
Qed.

Lemma key_lt_not_le k1 k2 : key_lt k1 k2 → ¬ key_le k2 k1.
Proof. intros ? ?; key_solve. Qed.

Lemma key_trichotomy k1 k2 : key_lt k1 k2 ∨ k1 = k2 ∨ key_lt k2 k1.
Proof.
  destruct k1 as [a1 b1], k2 as [a2 b2]. unfold key_lt. simpl.
  destruct (decide (a1 = a2 ∧ b1 = b2)) as [[-> ->]|];
    [by right; left | lia].
Qed.
End key_order.

(** ** The sort *)

Section sorting.
Implicit Types (x y : NNCdata) (l : list NNCdata) (K : Z * Z).

Lemma sorted_by_key_cons x l :
  sorted_by_key (x :: l) ↔
  Forall (λ y, key_le (key x) (key y)) l ∧ sorted_by_key l.
Proof. apply StronglySorted_cons. Qed.

(** What [std::sort] promises, read by keys. *)
Lemma ordered_sorted_by_key l :
  StronglySorted (λ a b, NNCdata_lt b a = false) l → sorted_by_key l.
Proof.
  induction 1 as [|x l _ IH Hx]; [constructor|].
  apply sorted_by_key_cons. split; [|done].
  eapply Forall_impl; [exact Hx|]. simpl. intros y. apply NNCdata_lt_false.
Qed.

Lemma sort_sorted `{!StdSort} l : sorted_by_key (sort l).
Proof. apply ordered_sorted_by_key, sort_ordered. Qed.

(** [std::stable_sort] gives a rearrangement ordered by key as well. *)
Lemma stable_sort_perm l : stable_sort l ≡ₚ l.
Proof. apply (sort_perm (StdSort := insertion_sort)). Qed.

Lemma stable_sort_sorted l : sorted_by_key (stable_sort l).
Proof. apply (@sort_sorted insertion_sort). Qed.

(** Stability: the entries of one key keep their relative order. *)
Lemma sort_insert_filter K x l :
  filter (has_key K) (sort_insert x l) = filter (has_key K) (x :: l).
Proof.
  induction l as [|y l IH]; simpl; [done|].
  destruct (NNCdata_lt y x) eqn:Hlt; [|done].
  apply NNCdata_lt_true in Hlt.
  rewrite (filter_cons _ y), IH, !filter_cons.
  repeat case_decide; try done.
  unfold has_key in *. exfalso.
  apply (key_lt_irrefl K). congruence.
Qed.

Lemma stable_sort_filter K l :
  filter (has_key K) (stable_sort l) = filter (has_key K) l.
Proof.
  induction l as [|x l IH]; simpl; [done|].
  by rewrite sort_insert_filter, !filter_cons, IH.
Qed.

(** The entries of one key come out of [std::sort] in some order. *)
Lemma sort_filter_perm `{!StdSort} K l :
  filter (has_key K) (sort l) ≡ₚ filter (has_key K) l.
Proof. by rewrite sort_perm. Qed.

(** The one entry of a key is the one entry of that key afterwards. *)
Lemma sort_filter_singleton `{!StdSort} K l x :
  filter (has_key K) l = [x] → filter (has_key K) (sort l) = [x].
Proof.
  intros Hone. apply Permutation_singleton_r.
  by rewrite sort_filter_perm, Hone.
Qed.

Lemma sort_singleton `{!StdSort} x : sort [x] = [x].
Proof. apply Permutation_singleton_r, sort_perm. Qed.

(** Two entries of one key come out in either order. *)
Lemma sort_pair `{!StdSort} x y : sort [x; y] = [x; y] ∨ sort [x; y] = [y; x].
Proof. apply Permutation_length_2_inv. symmetry. apply sort_perm. Qed.

Lemma NoDup_keys_inj l x y :
  NoDup (key <$> l) → x ∈ l → y ∈ l → key x = key y → x = y.
Proof.
  intros Hdup [i Hi]%list_elem_of_lookup_1 [j Hj]%list_elem_of_lookup_1 Hk.
  assert (i = j) as ->; [|congruence].
  apply (NoDup_lookup (key <$> l) i j (key x)); [done|..].
  - by rewrite list_lookup_fmap, Hi.
  - by rewrite list_lookup_fmap, Hj, Hk.
Qed.

(** Where no two entries share a key the promise leaves one result, the
    one the insertion sort gives. *)
Lemma sort_distinct_keys `{!StdSort} l :
  NoDup (key <$> l) → sort l = stable_sort l.
Proof.
  intros Hdup.
  apply (StronglySorted_unique_strong (λ a b, key_le (key a) (key b))).
  - intros x y Hx Hy Hxy Hyx.
    rewrite sort_perm in Hx. rewrite stable_sort_perm in Hy.
    apply (NoDup_keys_inj l); [done..|]. by apply key_le_antisym.
  - apply sort_sorted.
  - apply stable_sort_sorted.
  - by rewrite sort_perm, stable_sort_perm.
Qed.

(** Sortedness read by positions. *)
Lemma sorted_by_key_lookup l i j a b :
  sorted_by_key l → (i ≤ j)%nat → l !! i = Some a → l !! j = Some b →
  key_le (key a) (key b).
Proof.
  intros Hl. revert i j. induction Hl as [|x l Hl IH Hx]; intros i j Hij Hi Hj.
  - by rewrite lookup_nil in Hi.
  - destruct i as [|i], j as [|j]; simpl in *; simplify_eq.
    + apply key_le_refl.
    + rewrite Forall_forall in Hx. apply Hx.
      by eapply list_elem_of_lookup_2.
    + lia.
    + apply (IH i j); [lia|done..].
Qed.

(** Sortedness depends on the keys alone. *)
Lemma sorted_by_key_fmap_key l l' :
  key <$> l = key <$> l' → sorted_by_key l → sorted_by_key l'.
Proof.
  intros Heq Hl. revert l' Heq.
  induction Hl as [|x l Hl IH Hx]; intros [|x' l'] Heq; try done;
    [constructor|].
  assert (key x = key x') as Hhd by exact (f_equal (hd (key x)) Heq).
  assert (key <$> l = key <$> l') as Htl by exact (f_equal tail Heq).
  apply sorted_by_key_cons. split; [|by apply IH].
  assert (Forall (λ k, key_le (key x) k) (key <$> l)) as Hk
    by (rewrite Forall_fmap; exact Hx).
  rewrite Htl, Hhd in Hk. rewrite Forall_fmap in Hk. exact Hk.
Qed.
End sorting.

(** ** The binary search *)

Section lower_bound.
Implicit Types (l : list NNCdata) (val d : NNCdata).

(** On a sorted vector the halving loop returns the partition point of
    the searched range: everything before it is smaller than [val],
    nothing from it on is. *)
Lemma lower_bound_loop_spec l val first len :
  sorted_by_key l → (first + len ≤ length l)%nat →
  (∀ i d, (i < first)%nat → l !! i = Some d → NNCdata_lt d val = true) →
  (∀ i d, (first + len ≤ i)%nat → l !! i = Some d →
          NNCdata_lt d val = false) →
  (first ≤ lower_bound_loop l val first len ≤ first + len)%nat ∧
  (∀ i d, (i < lower_bound_loop l val first len)%nat → l !! i = Some d →
          NNCdata_lt d val = true) ∧
  (∀ i d, (lower_bound_loop l val first len ≤ i)%nat → l !! i = Some d →
          NNCdata_lt d val = false).
Proof.
  intros Hl. funelim (lower_bound_loop l val first len).
  - intros _ Hlo Hhi. split; [lia|]. split; [done|].
    intros i d ?. apply Hhi. lia.
  - intros Hlen _ _. apply lookup_ge_None in Heq.
    pose proof (Nat.lt_div2 (S n) ltac:(lia)). lia.
  - intros Hlen Hlo Hhi.
    pose proof (Nat.lt_div2 (S n) ltac:(lia)) as Hhalf.
    revert H Heq0 Hhalf. generalize (Nat.div2 (S n)). intros h IH Hmid Hhalf.
    destruct IH as (IH1 & IH2 & IH3); [done|lia| | |].
    + intros i d Hi Hd. apply NNCdata_lt_true.
      eapply key_le_lt_trans; [|by apply NNCdata_lt_true].
      apply (sorted_by_key_lookup l i (first + h)); [done|lia|done..].
    + intros i d Hi. apply Hhi. lia.
    + split; [lia|done].
  - intros Hlen Hlo Hhi.
    pose proof (Nat.lt_div2 (S n) ltac:(lia)) as Hhalf.
    revert H Heq0 Hhalf. generalize (Nat.div2 (S n)). intros h IH Hmid Hhalf.
    destruct IH as (IH1 & IH2 & IH3); [done|lia|done| |].
    + intros i d Hi Hd. apply NNCdata_lt_false.
      eapply key_le_trans; [by apply NNCdata_lt_false|].
      apply (sorted_by_key_lookup l (first + h) i); [done|lia|done..].
    + split; [lia|done].
Qed.

Lemma lower_bound_spec l val :
  sorted_by_key l →
  (lower_bound l val ≤ length l)%nat ∧
  (∀ i d, (i < lower_bound l val)%nat → l !! i = Some d →
          key_lt (key d) (key val)) ∧
  (∀ i d, (lower_bound l val ≤ i)%nat → l !! i = Some d →
          key_le (key val) (key d)).
Proof.
  intros Hl. unfold lower_bound.
  destruct (lower_bound_loop_spec l val 0 (length l)) as (H1 & H2 & H3);
    [done|lia|lia| |].
  - intros i d Hi Hd. apply lookup_lt_Some in Hd. lia.
  - split; [lia|]. split; intros i d Hi Hd.
    + apply NNCdata_lt_true. by eapply H2.
    + apply NNCdata_lt_false. by eapply H3.
Qed.

(** Decomposition of a sorted vector around a key: the search lands at
    the end of the strictly smaller prefix. *)
Lemma lower_bound_app l1 l2 val :
  sorted_by_key (l1 ++ l2) →
  Forall (λ d, key_lt (key d) (key val)) l1 →
  Forall (λ d, key_le (key val) (key d)) l2 →
  lower_bound (l1 ++ l2) val = length l1.
Proof.
  intros Hl H1 H2.
  destruct (lower_bound_spec (l1 ++ l2) val Hl) as (Hr & Hlo & Hhi).
  rewrite Forall_lookup in H1, H2.
  destruct (Nat.lt_trichotomy (lower_bound (l1 ++ l2) val) (length l1))
    as [Hlt|[?|Hgt]]; [|done|]; exfalso.
  - destruct (lookup_lt_is_Some_2 l1 _ Hlt) as [d Hd].
    apply (key_lt_not_le (key d) (key val)); [by eapply H1|].
    apply (Hhi (lower_bound (l1 ++ l2) val)); [done|].
    by rewrite lookup_app_l.
  - rewrite length_app in Hr.
    destruct (lookup_lt_is_Some_2 l2 0) as [d Hd]; [lia|].
    apply (key_lt_not_le (key d) (key val)); [|by eapply H2].
    apply (Hlo (length l1)); [done|].
    rewrite lookup_app_r, Nat.sub_diag; [done|lia].
Qed.
End lower_bound.

(** ** Sorted vectors around one key *)

Section around_key.
Implicit Types (l p run q : list NNCdata) (K : Z * Z).

(** A sorted vector is the entries below [K], then the run of [K], then
    the entries above [K]. *)
Lemma sorted_by_key_split K l :
  sorted_by_key l →
  ∃ p run q, l = p ++ run ++ q ∧
    Forall (λ d, key_lt (key d) K) p ∧
    Forall (has_key K) run ∧
    Forall (λ d, key_lt K (key d)) q.
Proof.
  induction 1 as [|x l Hl IH Hx].
  { exists [], [], []. by repeat split. }
  destruct IH as (p & run & q & -> & Hp & Hrun & Hq).
  destruct (key_trichotomy (key x) K) as [Hlt|[Heq|Hgt]].
  - exists (x :: p), run, q. repeat split; try done. by constructor.
  - assert (p = []) as ->.
    { destruct p as [|y p]; [done|]. exfalso.
      apply Forall_cons in Hp as [Hy _]. apply Forall_cons in Hx as [Hxy _].
      apply (key_lt_not_le _ _ Hy). by rewrite <-Heq. }
    exists [], (x :: run), q. repeat split; try done. by constructor.
  - assert (Forall (λ d, key_lt K (key d)) (p ++ run ++ q)) as Hall.
    { eapply Forall_impl; [exact Hx|]. simpl. intros y Hy.
      by eapply key_lt_le_trans. }
    exists [], [], (x :: p ++ run ++ q). repeat split; try done.
    by constructor.
Qed.

Lemma sorted_by_key_app_lt l1 l2 x :
  sorted_by_key l1 → sorted_by_key l2 →
  Forall (λ d, key_lt (key d) (key x)) l1 →
  Forall (λ d, key_le (key x) (key d)) l2 →
  sorted_by_key (l1 ++ x :: l2).
Proof.
  intros H1 H2 Hlt Hle. apply StronglySorted_app. repeat split; try done.
  - intros a b Ha Hb. rewrite Forall_forall in Hlt, Hle.
    apply elem_of_cons in Hb as [->|Hb].
    + apply key_lt_le. by apply Hlt.
    + eapply key_le_trans; [apply key_lt_le; by apply Hlt|by apply Hle].
  - by apply sorted_by_key_cons.
Qed.

(** Inserting at the binary-search position keeps the vector sorted. *)
Lemma insert_at_lower_bound_sorted l x :
  sorted_by_key l → sorted_by_key (insert_at (lower_bound l x) x l).
Proof.
  intros Hl.
  destruct (sorted_by_key_split (key x) l Hl)
    as (p & run & q & -> & Hp & Hrun & Hq).
  assert (Forall (λ d, key_le (key x) (key d)) (run ++ q)) as Hrq.
  { apply Forall_app. split.
    - eapply Forall_impl; [exact Hrun|]. unfold has_key. simpl.
      intros d ->. apply key_le_refl.
    - eapply Forall_impl; [exact Hq|]. simpl. intros d. apply key_lt_le. }
  rewrite lower_bound_app by done. unfold insert_at.
  rewrite take_app_length, drop_app_length.
  apply StronglySorted_app in Hl as (_ & Hsp & Hsrq).
  by apply sorted_by_key_app_lt.
Qed.
End around_key.

(** ** add_edit *)

Section add_edit.
Implicit Types (edit : list NNCdata) (e d : NNCdata) (K : Z * Z).

(** An edit of another key leaves the entries of [K] alone. *)
Lemma add_edit_filter_other K edit e :
  key e ≠ K → filter (has_key K) (add_edit edit e) = filter (has_key K) edit.
Proof.
  intros Hne. induction edit as [|x edit IH]; simpl.
  - rewrite filter_cons, filter_nil. by case_decide.
  - destruct edit as [|y edit].
    + destruct (equality x e) eqn:Heq.
      * apply equality_true in Heq.
        rewrite !filter_cons, !filter_nil. unfold has_key.
        change (key (scale (trans e) x)) with (key x).
        repeat case_decide; congruence.
      * rewrite !filter_cons, !filter_nil. unfold has_key.
        repeat case_decide; congruence.
    + by rewrite (filter_cons _ x), IH, <-filter_cons.
Qed.

(** Every key of the overlay is a key it had or the edit's. *)
Lemma add_edit_Forall_key (P : Z * Z → Prop) edit e :
  Forall (λ d, P (key d)) edit → P (key e) →
  Forall (λ d, P (key d)) (add_edit edit e).
Proof.
  intros Hall He. induction Hall as [|x edit Hx Hall IH]; simpl.
  - by constructor.
  - destruct edit as [|y edit].
    + destruct (equality x e); repeat constructor; by rewrite ?key_scale.
    + by constructor.
Qed.

(** Edits arriving in key order build a strictly increasing overlay. *)
Lemma add_edit_strictly_sorted edit e :
  strictly_sorted_by_key edit →
  Forall (λ d, key_le (key d) (key e)) edit →
  strictly_sorted_by_key (add_edit edit e).
Proof.
  intros Hs. induction Hs as [|x edit Hs IH Hx]; simpl; intros Hle.
  - repeat constructor.
  - apply Forall_cons in Hle as [Hxe Hle].
    destruct edit as [|y edit].
    + destruct (equality x e) eqn:Heq; [repeat constructor|].
      apply equality_false in Heq.
      apply StronglySorted_cons. split; [|repeat constructor].
      constructor; [|done].
      destruct (key_le_lt_cases _ _ Hxe); [congruence|done].
    + apply StronglySorted_cons. split; [|by apply IH].
      apply (add_edit_Forall_key (λ k, key_lt (key x) k)); [done|].
      apply Forall_cons in Hx as [Hxy _]. apply Forall_cons in Hle as [Hye _].
      by eapply key_lt_le_trans.
Qed.
End add_edit.

(** ** The scaling loop *)

Section scale_run.
Implicit Types (l p run q : list NNCdata) (e d : NNCdata) (K : Z * Z).

(** Started at the head of a run of the edit's key, the loop scales the
    whole run and stops behind it. *)
Lemma scale_run_spec run : ∀ fuel p q e b,
  Forall (has_key (key e)) run → stops_at e q →
  (length run ≤ fuel)%nat →
  scale_run fuel (p ++ run ++ q) (length p) e b =
    (p ++ (scale (trans e) <$> run) ++ q,
     (length p + length run)%nat,
     b || bool_decide (run ≠ [])).
Proof.
  induction run as [|d run IH]; intros fuel p q e b Hrun Hq Hfuel.
  - simpl. rewrite Nat.add_0_r, orb_false_r.
    destruct fuel as [|fuel]; simpl; [done|].
    rewrite lookup_app_r, Nat.sub_diag by lia.
    destruct q as [|d q]; simpl; [done|].
    assert (equality d e = false) as ->; [|done].
    apply equality_false. by apply Hq.
  - destruct fuel as [|fuel]; simpl in Hfuel; [lia|].
    apply Forall_cons in Hrun as [Hd Hrun]. simpl.
    rewrite lookup_app_r, Nat.sub_diag by lia. simpl.
    assert (equality d e = true) as -> by by apply equality_true.
    replace (alter (scale (trans e)) (length p) (p ++ d :: run ++ q))
      with ((p ++ [scale (trans e) d]) ++ run ++ q).
    2:{ rewrite <-(Nat.add_0_r (length p)) at 1.
        rewrite alter_app_r. simpl. by rewrite <-app_assoc. }
    replace (S (length p)) with (length (p ++ [scale (trans e) d]))
      by (rewrite length_app; simpl; lia).
    rewrite IH by (done || lia).
    rewrite <-app_assoc, length_app. simpl.
    rewrite orb_true_r. f_equal. f_equal. lia.
Qed.

(** The loop never touches a key. *)
Lemma scale_run_keys fuel : ∀ l cur e b,
  key <$> (scale_run fuel l cur e b).1.1 = key <$> l.
Proof.
  induction fuel as [|fuel IH]; intros l cur e b; simpl; [done|].
  destruct (l !! cur) as [d|] eqn:Hd; [|done].
  destruct (equality d e); [|done].
  rewrite IH. rewrite (list_fmap_alter _ _ id).
  - by apply list_alter_id.
  - by apply Forall_true.
Qed.

(** The loop leaves the entries of every other key alone. *)
Lemma scale_run_filter_other K fuel : ∀ l cur e b,
  key e ≠ K →
  filter (has_key K) (scale_run fuel l cur e b).1.1 = filter (has_key K) l.
Proof.
  induction fuel as [|fuel IH]; intros l cur e b Hne; simpl; [done|].
  destruct (l !! cur) as [d|] eqn:Hd; [|done].
  destruct (equality d e) eqn:Heq; [|done].
  apply equality_true in Heq. rewrite IH by done.
  apply list_elem_of_split_length in Hd as (l1 & l2 & -> & ->).
  rewrite <-(Nat.add_0_r (length l1)), alter_app_r. simpl.
  rewrite !filter_app, !filter_cons. unfold has_key.
  change (key (scale (trans e) d)) with (key d).
  repeat case_decide; congruence.
Qed.
End scale_run.

(** ** Filtering by key *)

Section filter_key.
Implicit Types (l : list NNCdata) (K : Z * Z).

Lemma filter_has_key_all K l :
  Forall (has_key K) l → filter (has_key K) l = l.
Proof.
  induction 1 as [|x l Hx _ IH]; [done|].
  by rewrite filter_cons_True, IH.
Qed.

Lemma filter_has_key_none K l :
  Forall (λ d, key d ≠ K) l ↔ filter (has_key K) l = [].
Proof.
  induction l as [|x l IH]; [done|].
  rewrite Forall_cons, filter_cons, IH. unfold has_key.
  case_decide; [split; [by intros [? _]|done]|split; [by intros [_ ?]|done]].
Qed.

Lemma filter_has_key_lt K l :
  Forall (λ d, key_lt (key d) K) l → filter (has_key K) l = [].
Proof.
  intros Hl. apply filter_has_key_none.
  eapply Forall_impl; [exact Hl|]. simpl. intros d Hd Heq.
  rewrite Heq in Hd. by apply key_lt_irrefl in Hd.
Qed.

Lemma filter_has_key_gt K l :
  Forall (λ d, key_lt K (key d)) l → filter (has_key K) l = [].
Proof.
  intros Hl. apply filter_has_key_none.
  eapply Forall_impl; [exact Hl|]. simpl. intros d Hd Heq.
  rewrite Heq in Hd. by apply key_lt_irrefl in Hd.
Qed.

(** The entries of [K] in a vector split around [K]. *)
Lemma filter_has_key_split K p run q :
  Forall (λ d, key_lt (key d) K) p → Forall (has_key K) run →
  Forall (λ d, key_lt K (key d)) q →
  filter (has_key K) (p ++ run ++ q) = run.
Proof.
  intros Hp Hrun Hq.
  rewrite !filter_app, (filter_has_key_lt K p), (filter_has_key_gt K q),
    (filter_has_key_all K run) by done.
  by rewrite app_nil_r.
Qed.
End filter_key.

(** ** The merge loop of load_edit *)

Section merge.
Implicit Types (st : merge_state) (e d : NNCdata) (K : Z * Z).
Implicit Types (p run q es : list NNCdata).

Lemma apply_edit_cases input cur edit e :
  ∃ input' cur' b,
    scale_run (length input - cur) input cur e false = (input', cur', b) ∧
    apply_edit input cur edit e =
      mkMerge input' cur' (if b then edit else add_edit edit e).
Proof.
  unfold apply_edit.
  destruct (scale_run _ _ _ _ _) as [[input' cur'] b].
  exists input', cur', b. split; [done|]. by destruct b.
Qed.

(** A round touches no key of [m_input]. *)
Lemma merge_step_keys st e :
  key <$> ms_input (merge_step st e) = key <$> ms_input st.
Proof.
  unfold merge_step.
  repeat (case_match; simpl; try done);
    match goal with
    | |- context [apply_edit ?i ?c ?ed ?e] =>
        destruct (apply_edit_cases i c ed e) as (i' & c' & b & Hrun & ->);
        simpl;
        pose proof (scale_run_keys (length i - c) i c e false) as Hk;
        by rewrite Hrun in Hk
    end.
Qed.

(** A round leaves the entries of every other key alone, in [m_input]
    and in [m_edit]. *)
Lemma merge_step_filter_other K st e :
  key e ≠ K →
  filter (has_key K) (ms_input (merge_step st e))
    = filter (has_key K) (ms_input st) ∧
  filter (has_key K) (ms_edit (merge_step st e))
    = filter (has_key K) (ms_edit st).
Proof.
  intros Hne. unfold merge_step.
  repeat (case_match; simpl; try done);
    try (split; [done|by apply add_edit_filter_other]);
    match goal with
    | |- context [apply_edit ?i ?c ?ed ?e] =>
        destruct (apply_edit_cases i c ed e) as (i' & c' & b & Hrun & ->);
        simpl;
        pose proof (scale_run_filter_other K (length i - c) i c e false Hne)
          as Hk;
        rewrite Hrun in Hk; split; [done|];
        destruct b; [done|by apply add_edit_filter_other]
    end.
Qed.

(** A round leaves [m_edit] alone or hands the edit to [add_edit]. *)
Lemma merge_step_edit_cases st e :
  ms_edit (merge_step st e) = ms_edit st ∨
  ms_edit (merge_step st e) = add_edit (ms_edit st) e.
Proof.
  unfold merge_step.
  repeat (case_match; simpl; auto);
    match goal with
    | |- context [apply_edit ?i ?c ?ed ?e] =>
        destruct (apply_edit_cases i c ed e) as (i' & c' & b & Hrun & ->);
        simpl; destruct b; auto
    end.
Qed.

(** With the iterator at the end, the edit goes to the overlay without a
    look at [m_input]. *)
Lemma merge_step_at_end st e :
  ms_current st = length (ms_input st) →
  merge_step st e =
    mkMerge (ms_input st) (ms_current st) (add_edit (ms_edit st) e).
Proof.
  intros Hend. unfold merge_step.
  by rewrite (proj2 (Nat.eqb_eq _ _) Hend).
Qed.

Lemma apply_edit_spec p run q edit e :
  Forall (has_key (key e)) run →
  Forall (λ d, key_lt (key e) (key d)) q →
  apply_edit (p ++ run ++ q) (length p) edit e =
    mkMerge (p ++ (scale (trans e) <$> run) ++ q)
            (length p + length run)
            (match run with [] => add_edit edit e | _ => edit end).
Proof.
  intros Hrun Hq. unfold apply_edit.
  rewrite scale_run_spec; [|done| |rewrite !length_app; lia].
  - by destruct run.
  - intros d Hd. destruct q as [|d' q]; simplify_eq/=.
    apply Forall_cons in Hq as [Hd _]. intros Heq. rewrite Heq in Hd.
    by apply (key_lt_irrefl (key e)).
Qed.

(** With the iterator inside a sorted [m_input], resting at the start of
    a run, a round scales the whole run of the edit's key; only when
    there is no such run does the edit go to the overlay. *)
Lemma merge_step_spec st e p run q :
  merge_inv st → (ms_current st < length (ms_input st))%nat →
  ms_input st = p ++ run ++ q →
  Forall (λ d, key_lt (key d) (key e)) p →
  Forall (has_key (key e)) run →
  Forall (λ d, key_lt (key e) (key d)) q →
  merge_step st e =
    mkMerge (p ++ (scale (trans e) <$> run) ++ q)
            (length p + length run)
            (match run with
             | [] => add_edit (ms_edit st) e
             | _ => ms_edit st
             end).
Proof.
  intros [Hs Hr Hb] Hlt Hin Hp Hrun Hq. unfold merge_step.
  destruct st as [input cur edit]. simpl in *. subst input.
  rewrite (proj2 (Nat.eqb_neq _ _)) by lia.
  destruct (lookup_lt_is_Some_2 _ _ Hlt) as [d Hd]. rewrite Hd.
  assert (Forall (λ d, key_le (key e) (key d)) (run ++ q)) as Hrq.
  { apply Forall_app. split.
    - eapply Forall_impl; [exact Hrun|]. unfold has_key. simpl.
      intros ? ->. apply key_le_refl.
    - eapply Forall_impl; [exact Hq|]. simpl. intros ?. apply key_lt_le. }
  destruct (negb (cell1 d =? cell1 e) || negb (cell2 d =? cell2 e))
    eqn:Hmis.
  - (* the keys differ: seek *)
    rewrite lower_bound_app by done.
    destruct (length p =? length (p ++ run ++ q))%nat eqn:Hend.
    + apply Nat.eqb_eq in Hend. rewrite !length_app in Hend.
      assert (run = []) as -> by (apply nil_length_inv; lia).
      assert (q = []) as -> by (apply nil_length_inv; simpl in *; lia).
      simpl. by rewrite Nat.add_0_r.
    + by apply apply_edit_spec.
  - (* the iterator already rests on the edit's key *)
    assert (key d = key e) as Hde by (clear -Hmis; key_solve).
    assert (cur = length p) as ->; [|by apply apply_edit_spec].
    rewrite Forall_lookup in Hp, Hq, Hrun.
    destruct (decide (cur < length p)%nat) as [Hlo|Hlo].
    { rewrite lookup_app_l in Hd by done. exfalso.
      apply (key_lt_irrefl (key e)). rewrite <-Hde at 1. by eapply Hp. }
    destruct (decide (cur - length p < length run)%nat) as [Hmid|Hhi].
    2:{ rewrite !lookup_app_r in Hd by lia. exfalso.
        apply (key_lt_irrefl (key e)). rewrite <-Hde at 2. by eapply Hq. }
    destruct (decide (cur = length p)) as [|Hne]; [done|].
    exfalso. destruct (lookup_lt_is_Some_2 run 0) as [d0 Hd0]; [lia|].
    apply (key_lt_irrefl (key e)).
    rewrite <-Hde at 2. rewrite <-(Hrun 0%nat d0 Hd0) at 1.
    apply (Hb (length p)); [lia| |done].
    rewrite lookup_app_r, Nat.sub_diag by lia.
    by rewrite lookup_app_l by lia.
Qed.
End merge.

Section merge_loop.
Implicit Types (st : merge_state) (e d : NNCdata) (K : Z * Z).
Implicit Types (es : list NNCdata).

(** A round keeps the invariant; when it leaves the iterator at the end,
    either it found it there or no key of [m_input] exceeds the edit's. *)
Lemma merge_step_inv st e :
  merge_inv st →
  merge_inv (merge_step st e) ∧
  (ms_current (merge_step st e) = length (ms_input (merge_step st e)) →
   ms_current st = length (ms_input st) ∨
   Forall (λ d, key_le (key d) (key e)) (ms_input (merge_step st e))).
Proof.
  intros Hinv.
  destruct (decide (ms_current st = length (ms_input st))) as [Hend|Hne].
  { rewrite merge_step_at_end by done. split; [|by left].
    destruct Hinv as [Hs Hr Hb]. by split. }
  pose proof Hinv as [Hs Hr Hb].
  destruct (sorted_by_key_split (key e) _ Hs)
    as (p & run & q & Hin & Hp & Hrun & Hq).
  rewrite (merge_step_spec st e p run q) by (done || lia).
  assert (key <$> p ++ (scale (trans e) <$> run) ++ q = key <$> ms_input st)
    as Hkeys.
  { rewrite Hin, !fmap_app, <-list_fmap_compose. done. }
  assert (Forall (λ d, key_le (key d) (key e))
            (p ++ (scale (trans e) <$> run))) as Hle.
  { apply Forall_app. split.
    - eapply Forall_impl; [exact Hp|]. simpl. intros ?. apply key_lt_le.
    - apply Forall_fmap. eapply Forall_impl; [exact Hrun|].
      unfold has_key. intros d Hd. change (key_le (key d) (key e)).
      rewrite Hd. apply key_le_refl. }
  simpl. split.
  - split; simpl.
    + eapply sorted_by_key_fmap_key; [symmetry; exact Hkeys|done].
    + rewrite !length_app, length_fmap. lia.
    + intros i d d' Hi Hd Hd'.
      rewrite app_assoc in Hd, Hd'.
      rewrite lookup_app_l in Hd by (rewrite length_app, length_fmap; lia).
      rewrite lookup_app_r in Hd' by (rewrite length_app, length_fmap; lia).
      rewrite Forall_lookup in Hle, Hq.
      eapply key_le_lt_trans; [by eapply Hle|by eapply Hq].
  - intros Hend'. right.
    rewrite !length_app, length_fmap in Hend'.
    assert (q = []) as -> by (apply nil_length_inv; lia).
    by rewrite app_nil_r in *.
Qed.

(** The loop touches no key of [m_input]. *)
Lemma merge_loop_keys es : ∀ st,
  key <$> ms_input (foldl merge_step st es) = key <$> ms_input st.
Proof.
  induction es as [|e es IH]; intros st; simpl; [done|].
  by rewrite IH, merge_step_keys.
Qed.

(** Edits of other keys leave the entries of [K] alone. *)
Lemma merge_loop_filter_other K es : ∀ st,
  Forall (λ e, key e ≠ K) es →
  filter (has_key K) (ms_input (foldl merge_step st es))
    = filter (has_key K) (ms_input st) ∧
  filter (has_key K) (ms_edit (foldl merge_step st es))
    = filter (has_key K) (ms_edit st).
Proof.
  induction es as [|e es IH]; intros st Hes; simpl; [done|].
  apply Forall_cons in Hes as [He Hes].
  destruct (IH (merge_step st e) Hes) as [-> ->].
  by apply merge_step_filter_other.
Qed.

(** Every key of the overlay comes from the overlay or from an edit. *)
Lemma merge_loop_edit_keys (P : Z * Z → Prop) es : ∀ st,
  Forall (λ d, P (key d)) (ms_edit st) → Forall (λ e, P (key e)) es →
  Forall (λ d, P (key d)) (ms_edit (foldl merge_step st es)).
Proof.
  induction es as [|e es IH]; intros st Hst Hes; simpl; [done|].
  apply Forall_cons in Hes as [He Hes]. apply IH; [|done].
  destruct (merge_step_edit_cases st e) as [-> | ->]; [done|].
  by apply add_edit_Forall_key.
Qed.

(** Sorted edits build a strictly increasing overlay. *)
Lemma merge_loop_edit_sorted es : ∀ st,
  sorted_by_key es →
  strictly_sorted_by_key (ms_edit st) →
  Forall (λ d, Forall (λ e, key_le (key d) (key e)) es) (ms_edit st) →
  strictly_sorted_by_key (ms_edit (foldl merge_step st es)).
Proof.
  induction es as [|e es IH]; intros st Hes Hst Hle; simpl; [done|].
  apply sorted_by_key_cons in Hes as [He Hes].
  assert (Forall (λ d, key_le (key d) (key e)) (ms_edit st)) as Hle_e.
  { eapply Forall_impl; [exact Hle|]. simpl. intros d Hd.
    by apply Forall_cons in Hd as [? _]. }
  assert (Forall (λ d, Forall (λ e', key_le (key d) (key e')) es)
            (ms_edit st)) as Hle_es.
  { eapply Forall_impl; [exact Hle|]. simpl. intros d Hd.
    by apply Forall_cons in Hd as [_ ?]. }
  apply IH; [done| |];
    destruct (merge_step_edit_cases st e) as [-> | ->]; try done.
  - by apply add_edit_strictly_sorted.
  - apply (add_edit_Forall_key
             (λ k, Forall (λ e', key_le k (key e')) es)); done.
Qed.

(** The one edit of key [K], met with the iterator not yet past the
    entries of [K]: the whole run of [K] is scaled by it and the overlay
    gets no entry for [K]. *)
Lemma merge_loop_unique_edit K e es : ∀ st,
  sorted_by_key es → filter (has_key K) es = [e] →
  merge_inv st →
  (ms_current st = length (ms_input st) →
   Forall (λ d, key_lt (key d) K) (ms_input st)) →
  filter (has_key K) (ms_input st) ≠ [] →
  filter (has_key K) (ms_input (foldl merge_step st es))
    = scale (trans e) <$> filter (has_key K) (ms_input st) ∧
  filter (has_key K) (ms_edit (foldl merge_step st es))
    = filter (has_key K) (ms_edit st).
Proof.
  induction es as [|x es IH]; intros st Hes HK Hinv Hend Hne; [done|].
  apply sorted_by_key_cons in Hes as [Hx Hes]. simpl.
  rewrite filter_cons in HK. case_decide as HxK.
  - (* the edit of [K] itself *)
    injection HK as -> HK. apply filter_has_key_none in HK.
    destruct (merge_loop_filter_other K es (merge_step st e) HK) as [-> ->].
    unfold has_key in HxK. subst K.
    assert (ms_current st ≠ length (ms_input st)) as Hcur.
    { intros Hc. apply Hne. by apply filter_has_key_lt, Hend. }
    pose proof Hinv as [Hs Hr Hb].
    destruct (sorted_by_key_split (key e) _ Hs)
      as (p & run & q & Hin & Hp & Hrun & Hq).
    rewrite (merge_step_spec st e p run q) by (done || lia). simpl.
    rewrite Hin, (filter_has_key_split _ p run q) in Hne by done.
    rewrite Hin, (filter_has_key_split _ p run q) by done.
    rewrite (filter_has_key_split _ p _ q); try done.
    + split; [done|]. by destruct run.
    + by apply Forall_fmap.
  - (* an edit of a smaller key *)
    assert (key_lt (key x) K) as HxltK.
    { assert (e ∈ filter (has_key K) es) as He
        by (rewrite HK; apply list_elem_of_here).
      apply list_elem_of_filter in He as [HeK He].
      rewrite Forall_forall in Hx.
      destruct (key_le_lt_cases _ _ (Hx e He)) as [Heq|Hlt].
      - unfold has_key in *. congruence.
      - unfold has_key in HeK. by rewrite <-HeK. }
    destruct (merge_step_filter_other K st x HxK) as [Hfi Hfe].
    destruct (merge_step_inv st x Hinv) as [Hinv' Hend'].
    destruct (IH (merge_step st x)) as [-> ->]; try done.
    + intros Hc. destruct (Hend' Hc) as [Hwas|Hle].
      * assert (merge_step st x = mkMerge (ms_input st) (ms_current st)
                  (add_edit (ms_edit st) x)) as ->
          by by apply merge_step_at_end.
        by apply Hend.
      * eapply Forall_impl; [exact Hle|]. simpl. intros d Hd.
        by eapply key_le_lt_trans.
    + by rewrite Hfi.
    + by rewrite Hfi, Hfe.
Qed.
End merge_loop.

(** ** unique and set_difference *)

Section unique.
Implicit Types (l : list NNCdata) (x kept d : NNCdata) (K : Z * Z).

Lemma unique_from_Forall (P : NNCdata → Prop) l : ∀ kept,
  Forall P l → Forall P (unique_from kept l).
Proof.
  induction l as [|x l IH]; intros kept Hl; simpl; [done|].
  apply Forall_cons in Hl as [Hx Hl].
  destruct (equality kept x); [by apply IH|].
  constructor; [done|by apply IH].
Qed.

Lemma unique_Forall (P : NNCdata → Prop) l :
  Forall P l → Forall P (unique l).
Proof.
  destruct l as [|x l]; [done|]. simpl. intros [Hx Hl]%Forall_cons.
  constructor; [done|by apply unique_from_Forall].
Qed.

Lemma sorted_by_key_drop_second kept x l :
  sorted_by_key (kept :: x :: l) → sorted_by_key (kept :: l).
Proof.
  intros [Hk [_ Hl]%sorted_by_key_cons]%sorted_by_key_cons.
  apply sorted_by_key_cons. split; [|done].
  by apply Forall_cons in Hk as [_ ?].
Qed.

Lemma unique_from_strictly_sorted l : ∀ kept,
  sorted_by_key (kept :: l) →
  strictly_sorted_by_key (unique_from kept l) ∧
  Forall (λ d, key_lt (key kept) (key d)) (unique_from kept l).
Proof.
  induction l as [|x l IH]; intros kept Hs; simpl.
  { split; constructor. }
  destruct (equality kept x) eqn:Heq.
  - apply IH. by eapply sorted_by_key_drop_second.
  - apply equality_false in Heq.
    pose proof Hs as [[Hkx _]%Forall_cons Hxl]%sorted_by_key_cons.
    assert (key_lt (key kept) (key x)) as Hlt
      by (destruct (key_le_lt_cases _ _ Hkx); done).
    destruct (IH x Hxl) as [Hs' Hall]. split.
    + by apply StronglySorted_cons.
    + constructor; [done|].
      eapply Forall_impl; [exact Hall|]. simpl. intros d Hd.
      eapply key_lt_le_trans; [done|by apply key_lt_le].
Qed.

(** After the sort, [std::unique] leaves one entry per key. *)
Lemma unique_strictly_sorted l :
  sorted_by_key l → strictly_sorted_by_key (unique l).
Proof.
  destruct l as [|x l]; simpl; intros Hs; [constructor|].
  destruct (unique_from_strictly_sorted l x Hs).
  by apply StronglySorted_cons.
Qed.

Lemma unique_from_filter K l : ∀ kept,
  sorted_by_key (kept :: l) →
  filter (has_key K) (unique_from kept l) =
    if decide (key kept = K) then [] else take 1 (filter (has_key K) l).
Proof.
  induction l as [|x l IH]; intros kept Hs; simpl.
  { by case_decide. }
  destruct (equality kept x) eqn:Heq.
  - apply equality_true in Heq.
    rewrite IH by by eapply sorted_by_key_drop_second.
    case_decide; [done|].
    rewrite filter_cons_False; [done|]. unfold has_key. congruence.
  - apply equality_false in Heq.
    pose proof Hs as [[Hkx Hkl]%Forall_cons Hxl]%sorted_by_key_cons.
    rewrite !filter_cons, IH by done. unfold has_key.
    destruct (decide (key x = K)) as [HxK|HxK].
    + rewrite decide_False by congruence. done.
    + destruct (decide (key kept = K)) as [HkK|HkK]; [|done].
      symmetry. replace (filter (λ d, key d = K) l) with (@nil NNCdata);
        [done|].
      symmetry. apply (filter_has_key_gt K).
      apply sorted_by_key_cons in Hxl as [Hxl _].
      eapply Forall_impl; [exact Hxl|]. simpl. intros d Hd.
      eapply key_lt_le_trans; [|exact Hd].
      destruct (key_le_lt_cases _ _ Hkx); [congruence|by rewrite <-HkK].
Qed.

(** ... and that entry is the first of its key. *)
Lemma unique_filter K l :
  sorted_by_key l →
  filter (has_key K) (unique l) = take 1 (filter (has_key K) l).
Proof.
  destruct l as [|x l]; [done|]. intros Hs. simpl.
  rewrite !filter_cons, unique_from_filter by done. unfold has_key.
  destruct (decide (key x = K)); [done|done].
Qed.
End unique.

Section set_difference.
Implicit Types (x y d : NNCdata).

Lemma set_difference_cons x (l1 : list NNCdata) y (l2 : list NNCdata) :
  set_difference (x :: l1) (y :: l2) =
    if NNCdata_lt x y then x :: set_difference l1 (y :: l2)
    else if NNCdata_lt y x then set_difference (x :: l1) l2
    else set_difference l1 l2.
Proof. done. Qed.

Lemma set_difference_nil_r (l1 : list NNCdata) : set_difference l1 [] = l1.
Proof. by destruct l1. Qed.

Lemma filter_agree (P Q : NNCdata → Prop)
    `{!∀ d, Decision (P d), !∀ d, Decision (Q d)} (l : list NNCdata) :
  Forall (λ d, P d ↔ Q d) l → filter P l = filter Q l.
Proof.
  induction 1 as [|x l Hx _ IH]; [done|].
  rewrite !filter_cons, IH. by repeat case_decide; try done; tauto.
Qed.

Lemma filter_keep (P : NNCdata → Prop) `{!∀ d, Decision (P d)}
    (l : list NNCdata) :
  Forall P l → filter P l = l.
Proof.
  induction 1 as [|x l Hx _ IH]; [done|].
  by rewrite filter_cons_True, IH.
Qed.

(** Between a strictly increasing first range and a sorted second range
    the difference is by key alone: it keeps exactly the entries whose
    key does not occur in the second range. *)
Lemma set_difference_filter (l1 : list NNCdata) : ∀ l2,
  strictly_sorted_by_key l1 → sorted_by_key l2 →
  set_difference l1 l2 = filter (λ d, key d ∉ key <$> l2) l1.
Proof.
  induction l1 as [|x l1 IH1]; intros l2 Hs1 Hs2; [done|].
  pose proof Hs1 as [Hx Hs1']%StronglySorted_cons.
  induction l2 as [|y l2 IH2].
  { rewrite set_difference_nil_r. symmetry. apply filter_keep.
    apply Forall_true. intros d. apply not_elem_of_nil. }
  pose proof Hs2 as [Hy Hs2']%sorted_by_key_cons.
  assert (∀ d, key_lt (key d) (key y) → key d ∉ key <$> y :: l2) as Hbelow.
  { intros d Hd [z [Hz [->|Hin]%elem_of_cons]]%list_elem_of_fmap.
    - rewrite Hz in Hd. by apply key_lt_irrefl in Hd.
    - rewrite Forall_forall in Hy. apply (key_lt_not_le _ _ Hd).
      rewrite Hz. by apply Hy. }
  assert (∀ d, key_lt (key y) (key d) →
               key d ∉ key <$> l2 ↔ key d ∉ key <$> y :: l2) as Habove.
  { intros d Hd. rewrite fmap_cons, not_elem_of_cons.
    split; [|by intros [_ ?]]. intros Hnot. split; [|done].
    intros Heq. rewrite Heq in Hd. by apply key_lt_irrefl in Hd. }
  rewrite set_difference_cons.
  destruct (NNCdata_lt x y) eqn:Hxy; [|destruct (NNCdata_lt y x) eqn:Hyx].
  - apply NNCdata_lt_true in Hxy.
    rewrite filter_cons_True by by apply Hbelow.
    by rewrite IH1.
  - apply NNCdata_lt_true in Hyx. rewrite IH2 by done.
    apply filter_agree. constructor; [by apply Habove|].
    eapply Forall_impl; [exact Hx|]. simpl. intros d Hd. apply Habove.
    by eapply key_lt_trans'.
  - apply NNCdata_lt_false in Hxy, Hyx.
    pose proof (key_le_antisym _ _ Hxy Hyx) as Heq.
    rewrite filter_cons_False.
    2:{ intros Hnot. apply Hnot. rewrite <-Heq, fmap_cons.
        apply list_elem_of_here. }
    rewrite IH1 by done. apply filter_agree.
    eapply Forall_impl; [exact Hx|]. simpl. intros d Hd. apply Habove.
    by rewrite Heq.
Qed.

End set_difference.

(** ** Resolver and classifier *)

Section resolver.
Context (grid : EclipseGrid).
Implicit Types (record : DeckRecord) (k : Z * Z).

Lemma to_size_t_range z : 0 ≤ to_size_t z < 2 ^ 64.
Proof. unfold to_size_t. apply Z.mod_pos_bound. lia. Qed.

Lemma to_size_t_small z : 0 ≤ z < 2 ^ 64 → to_size_t z = z.
Proof. unfold to_size_t. intros. by apply Z.mod_small. Qed.

Lemma global_index_range record off g :
  global_index grid record off = Some g → 0 ≤ g < 2 ^ 64.
Proof.
  unfold global_index. repeat case_match; try done.
  intros [= <-]. apply to_size_t_range.
Qed.

Lemma make_index_pair_range record g1 g2 :
  make_index_pair grid record = Some (g1, g2) → 0 ≤ g1 ≤ g2 ∧ g2 < 2 ^ 64.
Proof.
  unfold make_index_pair.
  destruct (global_index grid record 0) as [a|] eqn:Ha; [|done].
  destruct (global_index grid record 3) as [b|] eqn:Hb; [|done].
  apply global_index_range in Ha, Hb.
  destruct (Z.ltb_spec a b); intros [= <- <-]; lia.
Qed.

Lemma resolved_range k : resolved grid k → 0 ≤ k.1 ≤ k.2 ∧ k.2 < 2 ^ 64.
Proof. destruct k. intros [record Hr]. by eapply make_index_pair_range. Qed.

(** On a canonical pair the subtraction does not wrap, and the
    classifier answers for the four differences. *)
Lemma is_neighbor_true g1 g2 :
  0 ≤ g1 ≤ g2 ∧ g2 < 2 ^ 64 →
  is_neighbor grid g1 g2 = true ↔
  g2 - g1 = 0 ∨ g2 - g1 = 1 ∨ g2 - g1 = getNX grid ∨ g2 - g1 = getNY grid.
Proof.
  intros Hr. unfold is_neighbor. rewrite to_size_t_small by lia.
  repeat case_match; bool_cases; split; try done; lia.
Qed.

Lemma is_neighbor_false g1 g2 :
  0 ≤ g1 ≤ g2 ∧ g2 < 2 ^ 64 → is_neighbor grid g1 g2 = false →
  g2 - g1 ≠ 0 ∧ g2 - g1 ≠ 1 ∧ g2 - g1 ≠ getNX grid ∧ g2 - g1 ≠ getNY grid.
Proof.
  intros Hr Hn. pose proof (is_neighbor_true g1 g2 Hr) as Hiff.
  rewrite Hn in Hiff. destruct Hiff as [_ Hiff].
  repeat split; intros Heq; assert (false = true) by auto; done.
Qed.

Lemma overlay_key_lt k : overlay_key grid k → k.1 < k.2.
Proof.
  intros [Hr Hn]. apply resolved_range in Hr.
  apply is_neighbor_false in Hn; lia.
Qed.
End resolver.

(** ** What the loaders collect *)

Section loaders.
Context (grid : EclipseGrid).
Implicit Types (record : DeckRecord) (kw : DeckKeyword) (s : NNC).
Implicit Types (l input : list NNCdata) (K : Z * Z).

Lemma load_input_records_resolved rs : ∀ input,
  Forall (λ d, resolved grid (key d)) input →
  Forall (λ d, resolved grid (key d))
         (foldl (load_input_record grid) input rs).
Proof.
  induction rs as [|r rs IH]; intros input Hin; simpl; [done|].
  apply IH. unfold load_input_record.
  destruct (make_index_pair grid r) as [[g1 g2]|] eqn:Hr; [|done].
  apply Forall_app. split; [done|]. repeat constructor. by exists r.
Qed.

Lemma load_input_keywords_resolved kws : ∀ s,
  Forall (λ d, resolved grid (key d)) (m_input s) →
  Forall (λ d, resolved grid (key d))
         (m_input (foldl (load_input_keyword grid) s kws)).
Proof.
  induction kws as [|kw kws IH]; intros s Hs; simpl; [done|].
  apply IH. simpl. by apply load_input_records_resolved.
Qed.

Lemma load_input_keywords_frame kws : ∀ s,
  m_edit (foldl (load_input_keyword grid) s kws) = m_edit s ∧
  m_editr (foldl (load_input_keyword grid) s kws) = m_editr s ∧
  m_edit_location (foldl (load_input_keyword grid) s kws)
    = m_edit_location s.
Proof.
  induction kws as [|kw kws IH]; intros s; simpl; [done|].
  by destruct (IH (load_input_keyword grid s kw)) as (-> & -> & ->).
Qed.

Lemma load_edit_records_overlay rs : ∀ l,
  Forall (λ d, overlay_key grid (key d)) l →
  Forall (λ d, overlay_key grid (key d))
         (foldl (load_edit_record grid) l rs).
Proof.
  induction rs as [|r rs IH]; intros l Hl; simpl; [done|].
  apply IH. unfold load_edit_record.
  destruct (item6_double r =? 1)%float; [done|].
  destruct (make_index_pair grid r) as [[g1 g2]|] eqn:Hr; [|done].
  destruct (is_neighbor grid g1 g2) eqn:Hn; [done|].
  apply Forall_app. split; [done|]. repeat constructor; [|done].
  by exists r.
Qed.

Lemma load_edit_keywords_overlay kws : ∀ st,
  Forall (λ d, overlay_key grid (key d)) st.1 →
  Forall (λ d, overlay_key grid (key d))
         (foldl (load_edit_keyword grid) st kws).1.
Proof.
  induction kws as [|kw kws IH]; intros st Hst; simpl; [done|].
  apply IH. simpl. by apply load_edit_records_overlay.
Qed.

(** What the edit loader collects, record by record. *)
Lemma load_edit_record_entry l record :
  load_edit_record grid l record = l ++ option_list (edit_entry grid record).
Proof.
  unfold load_edit_record, edit_entry.
  destruct (item6_double record =? 1)%float; [by rewrite app_nil_r|].
  destruct (make_index_pair grid record) as [[g1 g2]|];
    [|by rewrite app_nil_r].
  destruct (is_neighbor grid g1 g2); [by rewrite app_nil_r|done].
Qed.

Lemma load_edit_records_entries rs : ∀ l,
  foldl (load_edit_record grid) l rs = l ++ omap (edit_entry grid) rs.
Proof.
  induction rs as [|r rs IH]; intros l; simpl; [by rewrite app_nil_r|].
  rewrite IH, load_edit_record_entry, <-app_assoc.
  by destruct (edit_entry grid r).
Qed.

Lemma load_edit_keywords_entries kws : ∀ st,
  (foldl (load_edit_keyword grid) st kws).1
    = st.1 ++ omap (edit_entry grid) (mjoin (records <$> kws)).
Proof.
  induction kws as [|kw kws IH]; intros st; simpl; [by rewrite app_nil_r|].
  rewrite IH. simpl.
  by rewrite load_edit_records_entries, omap_app, app_assoc.
Qed.

Lemma surviving_edits_entries deck :
  surviving_edits grid deck = omap (edit_entry grid) (EDITNNC_records deck).
Proof.
  unfold surviving_edits, collect_edit.
  by rewrite load_edit_keywords_entries.
Qed.

(** An entry of an edit record has the record's pair and multiplier. *)
Lemma edit_entry_Some record e :
  edit_entry grid record = Some e →
  make_index_pair grid record = Some (key e) ∧
  trans e = item6_double record ∧
  (item6_double record =? 1)%float = false ∧
  is_neighbor grid (cell1 e) (cell2 e) = false.
Proof.
  unfold edit_entry.
  destruct (item6_double record =? 1)%float; [done|].
  destruct (make_index_pair grid record) as [[g1 g2]|]; [|done].
  destruct (is_neighbor grid g1 g2) eqn:Hn; [done|].
  by intros [= <-].
Qed.

Lemma load_editr_records_overlay rs : ∀ l,
  Forall (λ d, overlay_key grid (key d)) l →
  Forall (λ d, overlay_key grid (key d))
         (foldl (load_editr_record grid) l rs).
Proof.
  induction rs as [|r rs IH]; intros l Hl; simpl; [done|].
  apply IH. unfold load_editr_record.
  destruct (make_index_pair grid r) as [[g1 g2]|] eqn:Hr; [|done].
  destruct (is_neighbor grid g1 g2) eqn:Hn; [done|].
  constructor; [|done]. split; [by exists r|done].
Qed.

Lemma load_editr_keywords_overlay kws : ∀ st,
  Forall (λ d, overlay_key grid (key d)) st.1 →
  Forall (λ d, overlay_key grid (key d))
         (foldl (load_editr_keyword grid) st kws).1.
Proof.
  induction kws as [|kw kws IH]; intros st Hst; simpl; [done|].
  apply IH. unfold load_editr_keyword.
  destruct (records kw) as [|r rs] eqn:Hrs; [done|].
  simpl. by apply (load_editr_records_overlay (r :: rs)).
Qed.
End loaders.

Section stages.
Context `{!StdSort} (grid : EclipseGrid) (deck : Deck).
Implicit Types (K : Z * Z) (d e : NNCdata).

Lemma NNC_ctor_stages :
  NNC_ctor grid deck = load_editr grid deck (stage_edit grid deck).
Proof. done. Qed.

Lemma stage_input_frame :
  m_edit (stage_input grid deck) = [] ∧
  m_editr (stage_input grid deck) = [] ∧
  m_edit_location (stage_input grid deck) = None.
Proof.
  unfold stage_input, load_input. simpl.
  apply (load_input_keywords_frame grid _ NNC_default).
Qed.

Lemma stage_input_sorted : sorted_by_key (m_input (stage_input grid deck)).
Proof. apply sort_sorted. Qed.

Lemma stage_input_resolved :
  Forall (λ d, resolved grid (key d)) (m_input (stage_input grid deck)).
Proof.
  unfold stage_input, load_input. simpl. rewrite sort_perm.
  by apply load_input_keywords_resolved.
Qed.

(** [load_edit] is the merge loop over the sorted surviving edits. *)
Lemma stage_edit_merge :
  let st := foldl merge_step (mkMerge (m_input (stage_input grid deck)) 0 [])
                  (sort (surviving_edits grid deck)) in
  m_input (stage_edit grid deck) = ms_input st ∧
  m_edit (stage_edit grid deck) = ms_edit st ∧
  m_editr (stage_edit grid deck) = [].
Proof.
  destruct stage_input_frame as (Hedit & Heditr & Hloc).
  unfold stage_edit, load_edit, surviving_edits.
  rewrite Hloc, Hedit, Heditr.
  by destruct (collect_edit grid deck None) as [nnc_edit loc].
Qed.

Lemma merge_inv_start (input edit : list NNCdata) :
  sorted_by_key input → merge_inv (mkMerge input 0 edit).
Proof. intros Hs. split; simpl; [done|lia|]. intros i ? ? Hi. lia. Qed.

Lemma surviving_edits_overlay :
  Forall (λ d, overlay_key grid (key d)) (surviving_edits grid deck).
Proof. by apply load_edit_keywords_overlay. Qed.

Lemma surviving_editr_overlay :
  Forall (λ d, overlay_key grid (key d)) (surviving_editr grid deck).
Proof. by apply load_editr_keywords_overlay. Qed.

Lemma stage_edit_input_keys :
  key <$> m_input (stage_edit grid deck)
    = key <$> m_input (stage_input grid deck).
Proof.
  destruct stage_edit_merge as (-> & _ & _). by rewrite merge_loop_keys.
Qed.

Lemma stage_edit_input_sorted :
  sorted_by_key (m_input (stage_edit grid deck)).
Proof.
  eapply sorted_by_key_fmap_key; [|apply stage_input_sorted].
  by rewrite stage_edit_input_keys.
Qed.

Lemma stage_edit_overlay_sorted :
  strictly_sorted_by_key (m_edit (stage_edit grid deck)).
Proof.
  destruct stage_edit_merge as (_ & -> & _).
  apply merge_loop_edit_sorted; simpl;
    [apply sort_sorted|constructor|constructor].
Qed.

Lemma stage_edit_overlay_keys :
  Forall (λ d, overlay_key grid (key d)) (m_edit (stage_edit grid deck)).
Proof.
  destruct stage_edit_merge as (_ & -> & _).
  apply (merge_loop_edit_keys (overlay_key grid)); simpl; [constructor|].
  rewrite sort_perm. apply surviving_edits_overlay.
Qed.

(** The deque does not depend on the location already recorded. *)
Lemma collect_editr_list loc :
  (collect_editr grid deck loc).1 = surviving_editr grid deck.
Proof.
  unfold surviving_editr, collect_editr.
  generalize (@nil NNCdata). generalize (@None KeywordLocation).
  revert loc.
  induction (getKeywordList_EDITNNCR deck) as [|kw kws IH];
    intros loc loc' l; simpl; [done|].
  unfold load_editr_keyword at 2 4.
  destruct (records kw); simpl; apply IH.
Qed.

(** [load_editr] leaves the object alone when no replacement survives;
    otherwise it stores the sorted, deduplicated deque and purges the
    overlay with it. *)
Lemma load_editr_spec s :
  m_input (load_editr grid deck s) = m_input s ∧
  match surviving_editr grid deck with
  | [] =>
      m_edit (load_editr grid deck s) = m_edit s ∧
      m_editr (load_editr grid deck s) = m_editr s
  | _ =>
      let nnc_editr := unique (stable_sort (surviving_editr grid deck)) in
      m_edit (load_editr grid deck s)
        = set_difference (m_edit s) nnc_editr ∧
      m_editr (load_editr grid deck s) = nnc_editr
  end.
Proof.
  unfold load_editr.
  destruct (getKeywordList_EDITNNCR deck) as [|kw kws] eqn:Hkws.
  { unfold surviving_editr, collect_editr. by rewrite Hkws. }
  pose proof (collect_editr_list (m_editr_location s)) as Hlist.
  destruct (collect_editr grid deck (m_editr_location s))
    as [nnc_editr loc].
  simpl in Hlist. subst nnc_editr.
  by destruct (surviving_editr grid deck).
Qed.
End stages.

(** ** addNNC *)

Section addNNC.
Implicit Types (s : NNC) (c : Z) (t : float).

(** The call stores the canonical pair at its binary-search position and
    returns [true], after at most one re-entry. *)
Lemma addNNC_canonical s c1 c2 t :
  addNNC s c1 c2 t =
    let nnc := mkNNCdata (Z.min c1 c2) (Z.max c1 c2) t in
    (true,
     set_m_input s
       (insert_at (lower_bound (m_input s) nnc) nnc (m_input s))).
Proof.
  simp addNNC. destruct (decide (c1 > c2)) as [Hgt|Hle]; simpl.
  - simp addNNC. destruct (decide (c2 > c1)); [lia|]. simpl.
    by rewrite Z.min_r, Z.max_l by lia.
  - by rewrite Z.min_l, Z.max_r by lia.
Qed.
End addNNC.

(** ** Facts about whole states *)

Section states.
Context `{!StdSort}.
Implicit Types (s : NNC) (d : NNCdata).

Lemma strictly_sorted_sorted (l : list NNCdata) :
  strictly_sorted_by_key l → sorted_by_key l.
Proof.
  induction 1 as [|x l _ IH Hx]; [constructor|].
  apply sorted_by_key_cons. split; [|done].
  eapply Forall_impl; [exact Hx|]. simpl. intros d. apply key_lt_le.
Qed.

Lemma Forall_key (P : Z * Z → Prop) (l : list NNCdata) :
  Forall (λ d, P (key d)) l ↔ Forall P (key <$> l).
Proof. by rewrite Forall_fmap. Qed.

Lemma NNC_ctor_m_input grid deck :
  m_input (NNC_ctor grid deck) = m_input (stage_edit grid deck).
Proof.
  rewrite NNC_ctor_stages.
  by destruct (load_editr_spec grid deck (stage_edit grid deck)).
Qed.

Lemma NNC_ctor_sorted grid deck : sorted_by_key (m_input (NNC_ctor grid deck)).
Proof. rewrite NNC_ctor_m_input. apply stage_edit_input_sorted. Qed.

Lemma NNC_ctor_input_resolved grid deck :
  Forall (λ d, resolved grid (key d)) (m_input (NNC_ctor grid deck)).
Proof.
  rewrite NNC_ctor_m_input.
  pose proof (stage_input_resolved grid deck) as Hres.
  apply Forall_key in Hres. apply Forall_key.
  by rewrite stage_edit_input_keys.
Qed.

(** The overlay after [load_editr] is the overlay after [load_edit] less
    the entries whose key is replaced. *)
Lemma NNC_ctor_m_edit grid deck :
  m_edit (NNC_ctor grid deck) =
    filter (λ d, key d ∉ key <$> m_editr (NNC_ctor grid deck))
           (m_edit (stage_edit grid deck)).
Proof.
  rewrite NNC_ctor_stages.
  destruct (load_editr_spec grid deck (stage_edit grid deck)) as [_ Hspec].
  destruct (stage_edit_merge grid deck) as (_ & _ & Heditr).
  destruct (surviving_editr grid deck) as [|d l] eqn:Hsurv.
  - destruct Hspec as [-> ->]. rewrite Heditr. symmetry.
    apply filter_keep, Forall_true. intros d. apply not_elem_of_nil.
  - simpl in Hspec. destruct Hspec as [-> ->].
    apply set_difference_filter.
    + apply stage_edit_overlay_sorted.
    + apply strictly_sorted_sorted, unique_strictly_sorted.
      apply (stable_sort_sorted (d :: l)).
Qed.

Lemma NNC_ctor_m_editr grid deck :
  m_editr (NNC_ctor grid deck)
    = unique (stable_sort (surviving_editr grid deck)).
Proof.
  rewrite NNC_ctor_stages.
  destruct (load_editr_spec grid deck (stage_edit grid deck)) as [_ Hspec].
  destruct (stage_edit_merge grid deck) as (_ & _ & Heditr).
  destruct (surviving_editr grid deck) as [|d l] eqn:Hsurv.
  - by destruct Hspec as [_ ->].
  - by destruct Hspec as [_ ->].
Qed.

Lemma NNC_ctor_overlay_keys grid deck :
  Forall (λ d, overlay_key grid (key d)) (m_edit (NNC_ctor grid deck)) ∧
  Forall (λ d, overlay_key grid (key d)) (m_editr (NNC_ctor grid deck)).
Proof.
  split.
  - rewrite NNC_ctor_m_edit. apply Forall_forall.
    intros d [_ Hd]%list_elem_of_filter. revert d Hd. apply Forall_forall.
    apply stage_edit_overlay_keys.
  - rewrite NNC_ctor_m_editr. apply unique_Forall.
    rewrite stable_sort_perm. apply surviving_editr_overlay.
Qed.

Lemma overlay_key_non_adjacent grid d :
  overlay_key grid (key d) → cell1 d < cell2 d ∧ non_adjacent grid d.
Proof.
  intros Hk. split; [by apply (overlay_key_lt grid (key d))|].
  destruct Hk as [Hr Hn]. apply resolved_range in Hr.
  by apply is_neighbor_false.
Qed.

Lemma insert_at_Forall (P : NNCdata → Prop) pos x (l : list NNCdata) :
  P x → Forall P l → Forall P (insert_at pos x l).
Proof.
  intros Hx Hl. unfold insert_at. apply Forall_app. split.
  - by apply Forall_take.
  - constructor; [done|by apply Forall_drop].
Qed.
End states.

(** ** Decks on which every std::sort gives the same object *)

(** Where the connections have pairwise different keys, and the surviving
    edits too, [std::sort] has no choice: the constructor builds the
    object it builds with the insertion sort. *)
Lemma NNC_ctor_distinct_keys `{!StdSort} grid deck :
  NoDup (key <$> m_input (@NNC_ctor insertion_sort grid deck)) →
  NoDup (key <$> surviving_edits grid deck) →
  NNC_ctor grid deck = @NNC_ctor insertion_sort grid deck.
Proof.
  intros Hin Hedit.
  assert (load_input grid deck NNC_default
            = @load_input insertion_sort grid deck NNC_default) as Hload.
  { unfold load_input. f_equal. apply sort_distinct_keys.
    rewrite (@NNC_ctor_m_input insertion_sort) in Hin.
    rewrite (@stage_edit_input_keys insertion_sort) in Hin.
    unfold stage_input, load_input in Hin. cbn [m_input set_m_input] in Hin.
    by rewrite (sort_perm (StdSort := insertion_sort)) in Hin. }
  unfold NNC_ctor. rewrite Hload. f_equal.
  destruct (@stage_input_frame insertion_sort grid deck) as (_ & _ & Hloc).
  unfold stage_input in Hloc. unfold load_edit. rewrite Hloc.
  unfold surviving_edits in Hedit.
  destruct (collect_edit grid deck None) as [nnc_edit loc]. simpl in Hedit.
  by rewrite sort_distinct_keys.
Qed.

(** * Properties of the specification *)

(** ** C1: a replacement purges the multiplier of its key *)

(** The purge at work: the edit and the replacement of the pair 0-8 carry
    different values, and the edit is gone from the overlay. *)
Example purge_runs :
  m_edit (stage_edit Sample.grid Sample.deck_purge)
    = [mkNNCdata 0 8 2; mkNNCdata 1 7 3] ∧
  m_edit (NNC_ctor Sample.grid Sample.deck_purge) = [mkNNCdata 1 7 3] ∧
  m_editr (NNC_ctor Sample.grid Sample.deck_purge) = [mkNNCdata 0 8 7].
Proof. vm_compute. done. Qed.

(** C1. After construction from any grid and deck, no key of the
    replacement overlay [m_editr] is left in the multiplicative overlay
    [m_edit]: [load_editr] purges the overlay that [load_edit] built by key
    alone, whatever values the two entries of a key carry, and keeps every
    other entry. *)
Theorem C1_replacement_purges_overlay `{!StdSort} grid deck :
  m_edit (NNC_ctor grid deck) =
    filter (λ d, key d ∉ key <$> m_editr (NNC_ctor grid deck))
           (m_edit (stage_edit grid deck)) ∧
  Forall (λ d, key d ∉ key <$> m_editr (NNC_ctor grid deck))
         (m_edit (NNC_ctor grid deck)).
Proof.
  split; [apply NNC_ctor_m_edit|].
  rewrite NNC_ctor_m_edit. apply Forall_forall.
  by intros d [Hd _]%list_elem_of_filter.
Qed.

(** ** C2: edits of a key of the connections *)

(** C2, at the failing input: one connection 0-8 and two edits of it.  The
    first edit scales the connection and leaves the iterator at the end of
    [m_input]; the second is handed to [add_edit] without a look at
    [m_input], so the key 0-8 of the connections is in the overlay.  With
    the two edits left in deck order the values are 10 and 3; whatever
    [std::sort] does with them, the edit it leaves second is overlaid. *)
Theorem C2_second_edit_of_last_connection_is_overlaid :
  (m_input (@NNC_ctor insertion_sort Sample.grid Sample.deck_two_edits)
     = [mkNNCdata 0 8 10] ∧
   m_edit (@NNC_ctor insertion_sort Sample.grid Sample.deck_two_edits)
     = [mkNNCdata 0 8 3]) ∧
  ∀ S : StdSort,
    (m_input (@NNC_ctor S Sample.grid Sample.deck_two_edits)
       = [mkNNCdata 0 8 10] ∧
     m_edit (@NNC_ctor S Sample.grid Sample.deck_two_edits)
       = [mkNNCdata 0 8 3]) ∨
    (m_input (@NNC_ctor S Sample.grid Sample.deck_two_edits)
       = [mkNNCdata 0 8 15] ∧
     m_edit (@NNC_ctor S Sample.grid Sample.deck_two_edits)
       = [mkNNCdata 0 8 2]).
Proof.
  split; [by vm_compute|]. intros S.
  assert (@NNC_ctor S Sample.grid Sample.deck_two_edits
            = stage_edit Sample.grid Sample.deck_two_edits) as ->
    by exact eq_refl.
  destruct (stage_edit_merge Sample.grid Sample.deck_two_edits)
    as (-> & -> & _).
  assert (m_input (stage_input Sample.grid Sample.deck_two_edits)
            = [mkNNCdata 0 8 5]) as ->.
  { unfold stage_input, load_input. cbn [m_input set_m_input].
    etrans; [|apply (sort_singleton (mkNNCdata 0 8 5))].
    f_equal; by vm_compute. }
  assert (surviving_edits Sample.grid Sample.deck_two_edits
            = [mkNNCdata 0 8 2; mkNNCdata 0 8 3]) as -> by (by vm_compute).
  destruct (sort_pair (mkNNCdata 0 8 2) (mkNNCdata 0 8 3)) as [-> | ->];
    [left|right]; by vm_compute.
Qed.

(** With one more connection behind the edited one the iterator does not
    reach the end, the second edit seeks the run again, and both edits are
    applied in place. *)
Example second_edit_of_inner_connection_is_applied :
  m_input (NNC_ctor Sample.grid Sample.deck_two_edits_inner)
    = [mkNNCdata 0 8 30; mkNNCdata 1 7 5] ∧
  m_edit (NNC_ctor Sample.grid Sample.deck_two_edits_inner) = [].
Proof. vm_compute. done. Qed.

(** ** C3: stored keys are canonical *)

(** C3 fails for the connections: the base loader and [addNNC] store a
    pair of one cell with itself, whatever implementation of [std::sort]
    the loader runs on. *)
Lemma C3_self_pair_is_stored :
  (∀ S : StdSort,
     m_input (@NNC_ctor S Sample.grid Sample.deck_self_pair)
       = [mkNNCdata 4 4 5]) ∧
  (∀ S : StdSort,
     ¬ keys_strict (@NNC_ctor S Sample.grid Sample.deck_self_pair)) ∧
  (∀ S : StdSort,
     m_input (addNNC (@NNC_ctor S Sample.grid Sample.deck) 4 4 1).2
       = [mkNNCdata 0 8 10; mkNNCdata 4 4 1]) ∧
  (∀ S : StdSort,
     ¬ keys_strict (addNNC (@NNC_ctor S Sample.grid Sample.deck) 4 4 1).2).
Proof.
  assert (∀ l t, ¬ Forall (λ d, cell1 d < cell2 d) (l ++ [mkNNCdata 4 4 t]))
    as Hno.
  { intros l t [_ [Hd _]%Forall_cons]%Forall_app. simpl in Hd. lia. }
  assert (∀ S : StdSort,
            m_input (@NNC_ctor S Sample.grid Sample.deck_self_pair)
              = [mkNNCdata 4 4 5]) as Hctor.
  { intros S. rewrite NNC_ctor_distinct_keys; [by vm_compute|..];
      apply (bool_decide_unpack _); by vm_compute. }
  assert (∀ S : StdSort,
            m_input (addNNC (@NNC_ctor S Sample.grid Sample.deck) 4 4 1).2
              = [mkNNCdata 0 8 10; mkNNCdata 4 4 1]) as Hadd.
  { intros S. rewrite NNC_ctor_distinct_keys; [by vm_compute|..];
      apply (bool_decide_unpack _); by vm_compute. }
  split; [done|]. split; [|split; [done|]].
  - intros S [Hin _]. rewrite Hctor in Hin. by apply (Hno [] 5%float).
  - intros S [Hin _]. rewrite Hadd in Hin.
    by apply (Hno [mkNNCdata 0 8 10] 1%float).
Qed.

(** C3, amended.  In every state a caller can hold, the keys of the
    connections satisfy first <= second and the keys of both overlays
    satisfy first < second. *)
Theorem C3_stored_keys_canonical `{!StdSort} s : reachable s → keys_canonical s.
Proof.
  induction 1 as [grid deck|s c1 c2 t _ (Hin & Hedit & Heditr)].
  - destruct (NNC_ctor_overlay_keys grid deck) as [Hedit Heditr].
    repeat split.
    + eapply Forall_impl; [apply (NNC_ctor_input_resolved grid deck)|].
      simpl. intros d Hd%resolved_range. simpl in Hd. lia.
    + eapply Forall_impl; [exact Hedit|]. simpl.
      by intros d [? _]%overlay_key_non_adjacent.
    + eapply Forall_impl; [exact Heditr|]. simpl.
      by intros d [? _]%overlay_key_non_adjacent.
  - rewrite addNNC_canonical. repeat split; try done. simpl.
    apply insert_at_Forall; [simpl; lia|done].
Qed.

Lemma C3_stored_keys_canonical_witness :
  reachable (addNNC (NNC_ctor Sample.grid Sample.deck_purge) 8 0 1).2 ∧
  keys_canonical (addNNC (NNC_ctor Sample.grid Sample.deck_purge) 8 0 1).2.
Proof.
  split.
  - apply reachable_addNNC, reachable_ctor.
  - apply C3_stored_keys_canonical. apply reachable_addNNC, reachable_ctor.
Defined.

(** ** C4: the replacement declared last wins *)

Section last_wins.
Context (grid : EclipseGrid) (K : Z * Z).
Implicit Types (rs : list DeckRecord) (l : list NNCdata).

(** The deque holds the entries of a non-adjacent key in reverse deck
    order. *)
Lemma load_editr_records_filter rs : ∀ l,
  is_neighbor grid K.1 K.2 = false →
  filter (has_key K) (foldl (load_editr_record grid) l rs) =
    reverse (replacement_entry K <$> filter (resolves_to grid K) rs)
    ++ filter (has_key K) l.
Proof.
  intros l Hn. revert l.
  induction rs as [|r rs IH]; intros l; simpl; [done|].
  rewrite IH, filter_cons. unfold load_editr_record.
  destruct (decide (resolves_to grid K r)) as [Hr|Hr]; unfold resolves_to in Hr.
  - rewrite Hr. destruct K as [g1 g2]. simpl in Hn. rewrite Hn.
    rewrite filter_cons_True by done.
    by rewrite fmap_cons, reverse_cons, <-app_assoc.
  - destruct (make_index_pair grid r) as [[g1 g2]|]; [|done].
    destruct (is_neighbor grid g1 g2); [done|].
    rewrite filter_cons_False; [done|].
    unfold has_key, key. simpl. congruence.
Qed.

Lemma load_editr_keyword_list st kw :
  (load_editr_keyword grid st kw).1
    = foldl (load_editr_record grid) st.1 (records kw).
Proof. unfold load_editr_keyword. by destruct (records kw). Qed.

Lemma load_editr_keywords_filter kws : ∀ st,
  is_neighbor grid K.1 K.2 = false →
  filter (has_key K) (foldl (load_editr_keyword grid) st kws).1 =
    reverse (replacement_entry K
               <$> filter (resolves_to grid K) (mjoin (records <$> kws)))
    ++ filter (has_key K) st.1.
Proof.
  intros st Hn. revert st.
  induction kws as [|kw kws IH]; intros st; simpl; [done|].
  rewrite IH, load_editr_keyword_list, load_editr_records_filter by done.
  rewrite filter_app, fmap_app, reverse_app. by rewrite app_assoc.
Qed.

Lemma surviving_editr_filter deck :
  is_neighbor grid K.1 K.2 = false →
  filter (has_key K) (surviving_editr grid deck) =
    reverse (replacement_entry K
               <$> filter (resolves_to grid K) (EDITNNCR_records deck)).
Proof.
  intros Hn. unfold surviving_editr, collect_editr, EDITNNCR_records.
  rewrite load_editr_keywords_filter by done. simpl.
  by rewrite app_nil_r.
Qed.
End last_wins.

(** C4 fails on an adjacent key: the three replacement records of the
    pair 0-1 all resolve, and the overlay has no entry for it, whatever
    implementation of [std::sort] the other loaders run on. *)
Lemma C4_adjacent_key_has_no_entry :
  filter (resolves_to Sample.grid (0, 1))
         (EDITNNCR_records Sample.deck_adjacent_editr)
    = [Sample.rec_0_1 1.5; Sample.rec_0_1 2.5; Sample.rec_0_1 3.5] ∧
  (∀ S : StdSort,
     filter (has_key (0, 1))
            (m_editr (@NNC_ctor S Sample.grid Sample.deck_adjacent_editr))
       = []) ∧
  (∀ S : StdSort,
     filter (has_key (0, 1))
            (m_editr (@NNC_ctor S Sample.grid Sample.deck_adjacent_editr))
       ≠ [mkNNCdata 0 1 3.5]).
Proof.
  assert (∀ S : StdSort,
            m_editr (@NNC_ctor S Sample.grid Sample.deck_adjacent_editr)
              = []) as Hnone
    by (intros S; rewrite NNC_ctor_m_editr; by vm_compute).
  split; [by vm_compute|]. split; intros S; by rewrite Hnone.
Qed.

(** C4, amended.  For every key [K] that is not classified adjacent: if
    [r] is the last record, in deck order over all EDITNNCR keywords, that
    resolves to [K], then the replacement overlay holds exactly one entry
    for [K], and its value is the value of [r]. *)
Theorem C4_last_replacement_wins `{!StdSort} grid deck K r :
  is_neighbor grid K.1 K.2 = false →
  last (filter (resolves_to grid K) (EDITNNCR_records deck)) = Some r →
  filter (has_key K) (m_editr (NNC_ctor grid deck))
    = [mkNNCdata K.1 K.2 (item6_SIDouble r)].
Proof.
  intros Hn [rs Hlast]%last_Some.
  rewrite NNC_ctor_m_editr, unique_filter by apply stable_sort_sorted.
  rewrite stable_sort_filter, surviving_editr_filter by done.
  by rewrite Hlast, fmap_app, reverse_app.
Qed.

Lemma C4_last_replacement_wins_witness :
  is_neighbor Sample.grid (0, 8).1 (0, 8).2 = false ∧
  last (filter (resolves_to Sample.grid (0, 8))
               (EDITNNCR_records Sample.deck_last_wins))
    = Some (Sample.rec_0_8 3.5) ∧
  filter (has_key (0, 8))
         (m_editr (NNC_ctor Sample.grid Sample.deck_last_wins))
    = [mkNNCdata 0 8 3.5].
Proof.
  split; [by vm_compute|]. split; [by vm_compute|].
  apply (C4_last_replacement_wins Sample.grid Sample.deck_last_wins
           (0, 8) (Sample.rec_0_8 3.5)); by vm_compute.
Defined.

(** The three replacements 1.5, 2.5, 3.5 of the pair 0-8, declared
    across two keywords with other pairs in between. *)
Example last_wins_runs :
  m_editr (NNC_ctor Sample.grid Sample.deck_last_wins)
    = [mkNNCdata 0 8 3.5; mkNNCdata 1 7 5; mkNNCdata 2 6 6].
Proof. vm_compute. done. Qed.

(** ** C5: the one edit of a key scales every connection of that key *)

(** C5. Let [K] have entries in the connections at merge time, that is,
    after [load_input], and let exactly one surviving edit [e] carry the
    key [K]; its multiplier is the one an EDITNNC record that resolves to
    [K] gives.  After construction the entries of [K] in the connections
    are the entries at merge time, each with its cells as they were and
    its value multiplied by that multiplier (two entries when there were
    two), and the multiplicative overlay has no entry for [K]. *)
Theorem C5_single_edit_scales_connections `{!StdSort} grid deck K e :
  filter (has_key K) (surviving_edits grid deck) = [e] →
  filter (has_key K) (m_input (stage_input grid deck)) ≠ [] →
  (∃ r, r ∈ EDITNNC_records deck ∧ make_index_pair grid r = Some K ∧
        item6_double r = trans e) ∧
  filter (has_key K) (m_input (NNC_ctor grid deck))
    = (λ d, mkNNCdata (cell1 d) (cell2 d) (trans d * trans e)%float)
        <$> filter (has_key K) (m_input (stage_input grid deck))
  ∧ filter (has_key K) (m_edit (NNC_ctor grid deck)) = []
  ∧ ∀ a b,
      filter (has_key K) (m_input (stage_input grid deck)) = [a; b] →
      filter (has_key K) (m_input (NNC_ctor grid deck))
        = [mkNNCdata (cell1 a) (cell2 a) (trans a * trans e)%float;
           mkNNCdata (cell1 b) (cell2 b) (trans b * trans e)%float].
Proof.
  intros Hone Hsome. split.
  { assert (e ∈ filter (has_key K) (surviving_edits grid deck)) as He
      by (rewrite Hone; apply list_elem_of_here).
    apply list_elem_of_filter in He as [HeK He].
    rewrite surviving_edits_entries in He.
    apply list_elem_of_omap in He as (r & Hr & Hentry).
    apply edit_entry_Some in Hentry as (Hpair & Htrans & _).
    exists r. unfold has_key in HeK. by rewrite Hpair, HeK. }
  cut (filter (has_key K) (m_input (NNC_ctor grid deck))
         = scale (trans e)
             <$> filter (has_key K) (m_input (stage_input grid deck))
       ∧ filter (has_key K) (m_edit (NNC_ctor grid deck)) = []).
  { intros [Hscaled Hnone]. split; [done|]. split; [done|].
    intros a b Htwo. by rewrite Hscaled, Htwo. }
  destruct (stage_edit_merge grid deck) as (Hin & Hedit & _).
  destruct (merge_loop_unique_edit K e (sort (surviving_edits grid deck))
              (mkMerge (m_input (stage_input grid deck)) 0 []))
    as [Hscaled Hnone].
  - apply sort_sorted.
  - by apply sort_filter_singleton.
  - apply merge_inv_start, stage_input_sorted.
  - simpl. intros Hnil. symmetry in Hnil. apply nil_length_inv in Hnil.
    rewrite Hnil. constructor.
  - done.
  - simpl in Hscaled, Hnone. split.
    + by rewrite NNC_ctor_m_input, Hin.
    + apply filter_has_key_none. rewrite NNC_ctor_m_edit.
      apply Forall_forall. intros d [_ Hd]%list_elem_of_filter.
      revert d Hd. apply Forall_forall, filter_has_key_none.
      by rewrite Hedit.
Qed.

Lemma C5_single_edit_scales_connections_witness :
  filter (has_key (0, 8))
         (surviving_edits Sample.grid Sample.deck_two_connections)
    = [mkNNCdata 0 8 2] ∧
  filter (has_key (0, 8))
         (m_input (stage_input Sample.grid Sample.deck_two_connections))
    ≠ [] ∧
  (∃ r, r ∈ EDITNNC_records Sample.deck_two_connections ∧
        make_index_pair Sample.grid r = Some (0, 8) ∧
        item6_double r = 2%float) ∧
  filter (has_key (0, 8))
         (m_input (NNC_ctor Sample.grid Sample.deck_two_connections))
    = (λ d, mkNNCdata (cell1 d) (cell2 d) (trans d * 2)%float) <$>
      filter (has_key (0, 8))
             (m_input (stage_input Sample.grid Sample.deck_two_connections))
  ∧ filter (has_key (0, 8))
           (m_edit (NNC_ctor Sample.grid Sample.deck_two_connections)) = []
  ∧ ∀ a b,
      filter (has_key (0, 8))
             (m_input (stage_input Sample.grid Sample.deck_two_connections))
        = [a; b] →
      filter (has_key (0, 8))
             (m_input (NNC_ctor Sample.grid Sample.deck_two_connections))
        = [mkNNCdata (cell1 a) (cell2 a) (trans a * 2)%float;
           mkNNCdata (cell1 b) (cell2 b) (trans b * 2)%float].
Proof.
  split; [by vm_compute|]. split; [by vm_compute|].
  apply (C5_single_edit_scales_connections
           Sample.grid Sample.deck_two_connections (0, 8)
           (mkNNCdata 0 8 2)); by vm_compute.
Defined.

(** The two connections 0-8 of values 5 and 6 under the edit of factor
    2; the edit of 2-6 finds no connection and is overlaid. *)
Example two_connections_scaled :
  m_input (stage_input Sample.grid Sample.deck_two_connections)
    = [mkNNCdata 0 8 5; mkNNCdata 0 8 6; mkNNCdata 1 7 1] ∧
  m_input (NNC_ctor Sample.grid Sample.deck_two_connections)
    = [mkNNCdata 0 8 10; mkNNCdata 0 8 12; mkNNCdata 1 7 1] ∧
  m_edit (NNC_ctor Sample.grid Sample.deck_two_connections)
    = [mkNNCdata 2 6 4].
Proof. vm_compute. done. Qed.

(** ** C6: the index resolver *)

Section index_resolver.
Context (grid : EclipseGrid) (Hgrid : grid_extents_ok grid).

(** The conversion of a coordinate: in place when the 0-based value is
    not negative, into the upper half of [std::size_t] when it is. *)
Lemma to_size_t_coord c :
  int_coord c →
  (0 ≤ c - 1 → to_size_t (c - 1) = c - 1) ∧
  (c - 1 < 0 → 2 ^ 63 ≤ to_size_t (c - 1)).
Proof.
  unfold int_coord, to_size_t. intros Hc. split; intros Hsign.
  - apply Z.mod_small. lia.
  - rewrite <-(Z_mod_plus_full (c - 1) 1 (2 ^ 64)).
    rewrite Z.mod_small; lia.
Qed.

(** One triple: unresolved when out of bounds or inactive, else the
    global index of the addressed cell. *)
Lemma global_index_cases record off :
  record_coords_ok record → off = 0%nat ∨ off = 3%nat →
  let i := getItem_int record (0 + off) in
  let j := getItem_int record (1 + off) in
  let k := getItem_int record (2 + off) in
  ((out_of_bounds grid i j k ∨ inactive grid i j k) ∧
   global_index grid record off = None) ∨
  (¬ out_of_bounds grid i j k ∧ ¬ inactive grid i j k ∧
   global_index grid record off = Some (cell_index grid i j k)).
Proof.
  intros (H1 & H2 & H3 & H4 & H5 & H6) Hoff i j k.
  assert (int_coord i ∧ int_coord j ∧ int_coord k) as (Hi & Hj & Hk)
    by (destruct Hoff; subst off; done).
  destruct Hgrid as (HX & HY & HZ).
  destruct (to_size_t_coord i Hi) as [Hi0 Hi1].
  destruct (to_size_t_coord j Hj) as [Hj0 Hj1].
  destruct (to_size_t_coord k Hk) as [Hk0 Hk1].
  unfold global_index, out_of_bounds, inactive, cell_index.
  fold i j k.
  destruct (Z.leb_spec (getNX grid) (to_size_t (i - 1))) as [Hx|Hx].
  { left. split; [|done]. left. left. intros ?. rewrite Hi0 in Hx; lia. }
  destruct (Z.leb_spec (getNY grid) (to_size_t (j - 1))) as [Hy|Hy].
  { left. split; [|done]. left. right. left. intros ?.
    rewrite Hj0 in Hy; lia. }
  destruct (Z.leb_spec (getNZ grid) (to_size_t (k - 1))) as [Hz|Hz].
  { left. split; [|done]. left. right. right. intros ?.
    rewrite Hk0 in Hz; lia. }
  assert (0 ≤ i - 1) as Hi' by lia.
  assert (0 ≤ j - 1) as Hj' by lia.
  assert (0 ≤ k - 1) as Hk' by lia.
  rewrite Hi0, Hj0, Hk0 in * by done.
  destruct (cellActive grid (i - 1) (j - 1) (k - 1)) eqn:Hact; simpl.
  - right. split; [|split; [done|done]]. intros [?|[?|?]]; lia.
  - left. split; [by right|done].
Qed.
End index_resolver.

(** A record the resolver returns nothing for is skipped by each loader. *)
Lemma unresolved_record_skipped grid record (l : list NNCdata) :
  make_index_pair grid record = None →
  load_input_record grid l record = l ∧
  load_edit_record grid l record = l ∧
  load_editr_record grid l record = l.
Proof.
  intros Hnone. unfold load_input_record, load_edit_record, load_editr_record.
  rewrite Hnone. by destruct (item6_double record =? 1)%float.
Qed.

(** C6. On a record whose coordinates are [int]s and a grid whose extents
    leave the upper half of [std::size_t] free, the resolver returns
    nothing if and only if a coordinate of either triple, taken 0-based,
    is outside [0, extent) of its axis or an addressed cell is inactive;
    when both triples resolve it returns the smaller global index first
    and the larger second.  A record the resolver returns nothing for
    leaves the vector a loader is filling as it was. *)
Theorem C6_index_resolver grid record :
  grid_extents_ok grid → record_coords_ok record →
  (make_index_pair grid record = None ↔ unresolvable grid record) ∧
  (¬ unresolvable grid record →
   make_index_pair grid record = Some (canonical_pair grid record)) ∧
  (make_index_pair grid record = None →
   ∀ l, load_input_record grid l record = l ∧
        load_edit_record grid l record = l ∧
        load_editr_record grid l record = l).
Proof.
  intros Hgrid Hrec.
  pose proof (global_index_cases grid Hgrid record 0 Hrec (or_introl eq_refl))
    as H1.
  pose proof (global_index_cases grid Hgrid record 3 Hrec (or_intror eq_refl))
    as H2.
  simpl in H1, H2.
  split; [|split; [|by intros; apply unresolved_record_skipped]];
    unfold make_index_pair, unresolvable, canonical_pair;
    destruct H1 as [[Hbad1 ->]|(Hb1 & Ha1 & ->)]; try tauto;
    destruct H2 as [[Hbad2 ->]|(Hb2 & Ha2 & ->)]; try tauto.
  - split; [by case_match|tauto].
  - intros _. simpl. destruct (Z.ltb_spec
      (cell_index grid (item_I1 record) (item_J1 record) (item_K1 record))
      (cell_index grid (item_I2 record) (item_J2 record) (item_K2 record))).
    + by rewrite Z.min_l, Z.max_r by lia.
    + by rewrite Z.min_r, Z.max_l by lia.
Qed.

(** A record with a zero coordinate, and one that resolves with its
    larger cell first. *)
Lemma C6_index_resolver_witness :
  grid_extents_ok Sample.grid ∧
  record_coords_ok (Sample.rec 0 1 1 3 3 1 5) ∧
  record_coords_ok (Sample.rec 3 3 1 1 1 1 5) ∧
  (make_index_pair Sample.grid (Sample.rec 0 1 1 3 3 1 5) = None ↔
   unresolvable Sample.grid (Sample.rec 0 1 1 3 3 1 5)) ∧
  (¬ unresolvable Sample.grid (Sample.rec 3 3 1 1 1 1 5) →
   make_index_pair Sample.grid (Sample.rec 3 3 1 1 1 1 5)
     = Some (canonical_pair Sample.grid (Sample.rec 3 3 1 1 1 1 5))).
Proof.
  assert (grid_extents_ok Sample.grid) as Hgrid
    by (unfold grid_extents_ok; simpl; lia).
  assert (∀ i1 j1 k1 i2 j2 k2 v,
            int_coord i1 → int_coord j1 → int_coord k1 →
            int_coord i2 → int_coord j2 → int_coord k2 →
            record_coords_ok (Sample.rec i1 j1 k1 i2 j2 k2 v)) as Hrec
    by (intros; unfold record_coords_ok; simpl; tauto).
  assert (∀ c, -10 < c < 10 → int_coord c) as Hsmall
    by (unfold int_coord; lia).
  assert (record_coords_ok (Sample.rec 0 1 1 3 3 1 5)) as Hrec1
    by (apply Hrec; apply Hsmall; lia).
  assert (record_coords_ok (Sample.rec 3 3 1 1 1 1 5)) as Hrec2
    by (apply Hrec; apply Hsmall; lia).
  split; [exact Hgrid|]. split; [exact Hrec1|]. split; [exact Hrec2|].
  split.
  - apply (C6_index_resolver Sample.grid (Sample.rec 0 1 1 3 3 1 5)
             Hgrid Hrec1).
  - apply (C6_index_resolver Sample.grid (Sample.rec 3 3 1 1 1 1 5)
             Hgrid Hrec2).
Defined.

Example index_resolver_runs :
  make_index_pair Sample.grid (Sample.rec 0 1 1 3 3 1 5) = None ∧
  make_index_pair Sample.grid (Sample.rec 1 1 1 3 4 1 5) = None ∧
  make_index_pair Sample.grid (Sample.rec 3 3 1 1 1 1 5) = Some (0, 8).
Proof. vm_compute. done. Qed.

(** ** C7: no adjacent pair in the overlays *)

(** C7. After construction no entry of [m_edit] or [m_editr] is an
    adjacent pair: the classifier answers false on it and the difference
    of its cells is none of 0, 1, the X-extent, the Y-extent.  On a
    canonical pair the classifier answers true exactly for those four
    differences. *)
Theorem C7_overlays_hold_no_adjacent_pair `{!StdSort} grid deck :
  Forall (λ d, is_neighbor grid (cell1 d) (cell2 d) = false
               ∧ non_adjacent grid d)
         (m_edit (NNC_ctor grid deck) ++ m_editr (NNC_ctor grid deck)) ∧
  ∀ g1 g2, 0 ≤ g1 ≤ g2 ∧ g2 < 2 ^ 64 →
    is_neighbor grid g1 g2 = true ↔
    g2 - g1 = 0 ∨ g2 - g1 = 1 ∨ g2 - g1 = getNX grid ∨ g2 - g1 = getNY grid.
Proof.
  split; [|apply is_neighbor_true].
  destruct (NNC_ctor_overlay_keys grid deck) as [Hedit Heditr].
  apply Forall_app. split;
    (eapply Forall_impl; [eassumption|]); simpl; intros d Hd;
    (split; [by destruct Hd|by apply overlay_key_non_adjacent]).
Qed.

Lemma C7_overlays_hold_no_adjacent_pair_witness :
  (0 ≤ 5 ≤ 8 ∧ 8 < 2 ^ 64) ∧
  (is_neighbor Sample.grid 5 8 = true ↔
   8 - 5 = 0 ∨ 8 - 5 = 1 ∨ 8 - 5 = getNX Sample.grid
   ∨ 8 - 5 = getNY Sample.grid).
Proof.
  split; [lia|].
  apply (C7_overlays_hold_no_adjacent_pair Sample.grid
           Sample.deck_adjacent_editr). lia.
Defined.

(** The adjacent replacements of the pair 0-1 are all dropped. *)
Example adjacent_replacements_dropped :
  m_editr (NNC_ctor Sample.grid Sample.deck_adjacent_editr) = [].
Proof. vm_compute. done. Qed.

(** ** C8: the connections are sorted *)

(** C8. In every state a caller can hold, [m_input] is non-decreasing by
    key (lexicographic on the cell pair), and [addNNC] puts the new entry
    at its binary-search position, which keeps it so. *)
Theorem C8_connections_sorted `{!StdSort} s :
  reachable s →
  sorted_by_key (m_input s) ∧
  ∀ c1 c2 t,
    let nnc := mkNNCdata (Z.min c1 c2) (Z.max c1 c2) t in
    m_input (addNNC s c1 c2 t).2
      = insert_at (lower_bound (m_input s) nnc) nnc (m_input s) ∧
    sorted_by_key (m_input (addNNC s c1 c2 t).2).
Proof.
  intros Hs.
  assert (sorted_by_key (m_input s)) as Hsorted.
  { induction Hs as [grid deck|s c1 c2 t _ IH]; [apply NNC_ctor_sorted|].
    rewrite addNNC_canonical. simpl.
    by apply insert_at_lower_bound_sorted. }
  split; [done|]. intros c1 c2 t. rewrite addNNC_canonical. simpl.
  split; [done|]. by apply insert_at_lower_bound_sorted.
Qed.

Lemma C8_connections_sorted_witness :
  reachable (NNC_ctor Sample.grid Sample.deck_two_connections) ∧
  sorted_by_key
    (m_input (NNC_ctor Sample.grid Sample.deck_two_connections)) ∧
  sorted_by_key
    (m_input (addNNC (NNC_ctor Sample.grid Sample.deck_two_connections)
                     7 1 9).2).
Proof.
  split; [apply reachable_ctor|].
  destruct (C8_connections_sorted
              (NNC_ctor Sample.grid Sample.deck_two_connections)
              (reachable_ctor _ _)) as [Hsorted Hadd].
  split; [exact Hsorted|]. apply Hadd.
Defined.

Example addNNC_runs :
  m_input (addNNC (NNC_ctor Sample.grid Sample.deck_two_connections)
                  7 1 9).2
    = [mkNNCdata 0 8 10; mkNNCdata 0 8 12; mkNNCdata 1 7 9; mkNNCdata 1 7 1].
Proof. vm_compute. done. Qed.

(** ** C9: addNNC does not depend on the order of the cells *)

(** C9. For every state, cells and value, [addNNC] with the cells swapped
    gives the same state, and the call returns [true]. *)
Theorem C9_addNNC_symmetric s a b v :
  addNNC s a b v = addNNC s b a v ∧ (addNNC s a b v).1 = true.
Proof.
  rewrite !addNNC_canonical. simpl.
  by rewrite (Z.min_comm a b), (Z.max_comm a b).
Qed.

(** ** C10: addNNC changes the connections only *)

(** C10. [addNNC] leaves both overlays and the three locations as they
    were. *)
Theorem C10_addNNC_frame s a b v :
  m_edit (addNNC s a b v).2 = m_edit s ∧
  m_editr (addNNC s a b v).2 = m_editr s ∧
  m_nnc_location (addNNC s a b v).2 = m_nnc_location s ∧
  m_edit_location (addNNC s a b v).2 = m_edit_location s ∧
  m_editr_location (addNNC s a b v).2 = m_editr_location s.
Proof. by rewrite addNNC_canonical. Qed.

(** * Further properties of the code *)

(** ** Provenance: which location the constructor records *)

Section locations.
Context `{!StdSort} (grid : EclipseGrid).
Implicit Types (s : NNC) (kw : DeckKeyword) (loc : option KeywordLocation).

Lemma first_of_cons loc kw kws :
  first_of (first_location loc kw) kws = first_of loc (kw :: kws).
Proof. by destruct loc. Qed.

Lemma load_input_keywords_location kws : ∀ s,
  m_nnc_location (foldl (load_input_keyword grid) s kws)
    = first_of (m_nnc_location s) kws ∧
  m_editr_location (foldl (load_input_keyword grid) s kws)
    = m_editr_location s.
Proof.
  induction kws as [|kw kws IH]; intros s; simpl.
  { by destruct (m_nnc_location s). }
  destruct (IH (load_input_keyword grid s kw)) as [-> ->]. simpl.
  by rewrite first_of_cons.
Qed.

Lemma load_edit_keywords_location kws : ∀ st,
  (foldl (load_edit_keyword grid) st kws).2 = first_of st.2 kws.
Proof.
  induction kws as [|kw kws IH]; intros st; simpl.
  { by destruct st.2. }
  rewrite IH. simpl. by rewrite first_of_cons.
Qed.

Lemma load_editr_keywords_location kws : ∀ st,
  (foldl (load_editr_keyword grid) st kws).2
    = first_of st.2 (filter has_records kws).
Proof.
  induction kws as [|kw kws IH]; intros st; simpl.
  { by destruct st.2. }
  rewrite IH, filter_cons. unfold load_editr_keyword.
  destruct (decide (has_records kw)) as [Hrec|Hrec];
    unfold has_records in Hrec;
    destruct (records kw) as [|r rs]; simpl in *; try done.
  - by rewrite first_of_cons.
  - exfalso. apply Hrec. lia.
Qed.

Lemma load_edit_locations deck s :
  m_nnc_location (load_edit grid deck s) = m_nnc_location s ∧
  m_edit_location (load_edit grid deck s)
    = first_of (m_edit_location s) (getKeywordList_EDITNNC deck) ∧
  m_editr_location (load_edit grid deck s) = m_editr_location s.
Proof.
  unfold load_edit.
  pose proof (load_edit_keywords_location (getKeywordList_EDITNNC deck)
                ([], m_edit_location s)) as Hloc.
  fold (collect_edit grid deck (m_edit_location s)) in Hloc.
  by destruct (collect_edit grid deck (m_edit_location s)) as [nnc_edit loc].
Qed.

Lemma load_editr_locations deck s :
  m_nnc_location (load_editr grid deck s) = m_nnc_location s ∧
  m_edit_location (load_editr grid deck s) = m_edit_location s ∧
  m_editr_location (load_editr grid deck s)
    = first_of (m_editr_location s)
               (filter has_records (getKeywordList_EDITNNCR deck)).
Proof.
  unfold load_editr.
  pose proof (load_editr_keywords_location (getKeywordList_EDITNNCR deck)
                ([], m_editr_location s)) as Hloc.
  fold (collect_editr grid deck (m_editr_location s)) in Hloc.
  destruct (getKeywordList_EDITNNCR deck) as [|kw kws] eqn:Hkws.
  { by destruct (m_editr_location s). }
  destruct (collect_editr grid deck (m_editr_location s))
    as [nnc_editr loc].
  by destruct nnc_editr.
Qed.

Lemma NNC_ctor_locations deck :
  m_nnc_location (NNC_ctor grid deck)
    = location <$> head (getKeywordList_NNC deck) ∧
  m_edit_location (NNC_ctor grid deck)
    = location <$> head (getKeywordList_EDITNNC deck) ∧
  m_editr_location (NNC_ctor grid deck)
    = location <$> head (filter has_records (getKeywordList_EDITNNCR deck)).
Proof.
  unfold NNC_ctor.
  destruct (load_editr_locations deck
              (load_edit grid deck (load_input grid deck NNC_default)))
    as (-> & -> & ->).
  destruct (load_edit_locations deck (load_input grid deck NNC_default))
    as (-> & -> & ->).
  unfold load_input. simpl.
  destruct (load_input_keywords_location (getKeywordList_NNC deck)
              NNC_default) as [-> ->].
  destruct (load_input_keywords_frame grid (getKeywordList_NNC deck)
              NNC_default) as (_ & _ & ->).
  done.
Qed.
End locations.

(** X1. After construction, [input_location] answers with the location
    of the first NNC keyword of the deck and [edit_location] with that of
    the first EDITNNC keyword, for whatever entry it is asked and
    whatever the keyword's records were; a deck without such a keyword
    gives the empty location. *)
Theorem input_and_edit_location_first_keyword `{!StdSort}
    empty_location grid deck nnc :
  input_location empty_location (NNC_ctor grid deck) nnc
    = default empty_location (location <$> head (getKeywordList_NNC deck)) ∧
  edit_location empty_location (NNC_ctor grid deck) nnc
    = default empty_location
        (location <$> head (getKeywordList_EDITNNC deck)).
Proof.
  unfold input_location, edit_location.
  by destruct (NNC_ctor_locations grid deck) as (-> & -> & _).
Qed.

(** X2. After construction, [editr_location] answers with the location of
    the first EDITNNCR keyword that holds a record: a keyword without
    records is passed over before its location is looked at, while a
    keyword whose records are all skipped still counts. *)
Theorem editr_location_first_keyword_with_records `{!StdSort}
    empty_location grid deck nnc :
  editr_location empty_location (NNC_ctor grid deck) nnc
    = default empty_location
        (location <$> head (filter has_records
                                   (getKeywordList_EDITNNCR deck))).
Proof.
  unfold editr_location.
  by destruct (NNC_ctor_locations grid deck) as (_ & _ & ->).
Qed.

(** An empty EDITNNCR keyword in front, then one whose only record is
    adjacent: the second keyword's location is recorded, and no
    replacement. *)
Example editr_location_runs :
  editr_location (Sample.loc "" 0)
    (NNC_ctor Sample.grid Decks.empty_keyword_first) (mkNNCdata 0 1 9)
    = Sample.loc "EDITNNCR" 40 ∧
  m_editr (NNC_ctor Sample.grid Decks.empty_keyword_first) = [].
Proof. vm_compute. done. Qed.

(** ** The overlays hold one entry per key *)

Section one_entry_per_key.
Implicit Types (l : list NNCdata) (d : NNCdata).

Lemma strictly_sorted_filter (P : NNCdata → Prop)
    `{!∀ d, Decision (P d)} l :
  strictly_sorted_by_key l → strictly_sorted_by_key (filter P l).
Proof.
  induction 1 as [|x l _ IH Hx]; [constructor|].
  rewrite filter_cons. case_decide; [|done].
  apply StronglySorted_cons. split; [|done].
  apply Forall_forall. intros d [_ Hd]%list_elem_of_filter.
  revert d Hd. by apply Forall_forall.
Qed.

Lemma strictly_sorted_NoDup_keys l :
  strictly_sorted_by_key l → NoDup (key <$> l).
Proof.
  induction 1 as [|x l _ IH Hx]; simpl; [constructor|].
  apply NoDup_cons. split; [|done].
  intros (d & Hk & Hd)%list_elem_of_fmap.
  rewrite Forall_forall in Hx. specialize (Hx d Hd).
  rewrite <-Hk in Hx. by apply key_lt_irrefl in Hx.
Qed.
End one_entry_per_key.

(** X3. After construction each of the two overlays is strictly
    increasing by key, so it holds at most one entry per key: [add_edit]
    folds an edit into the last entry when the keys agree, and
    [std::unique] after the sort drops the repeated keys of the deque. *)
Theorem overlays_one_entry_per_key `{!StdSort} grid deck :
  strictly_sorted_by_key (m_edit (NNC_ctor grid deck)) ∧
  NoDup (key <$> m_edit (NNC_ctor grid deck)) ∧
  strictly_sorted_by_key (m_editr (NNC_ctor grid deck)) ∧
  NoDup (key <$> m_editr (NNC_ctor grid deck)).
Proof.
  assert (strictly_sorted_by_key (m_edit (NNC_ctor grid deck))) as Hedit.
  { rewrite NNC_ctor_m_edit.
    apply strictly_sorted_filter, stage_edit_overlay_sorted. }
  assert (strictly_sorted_by_key (m_editr (NNC_ctor grid deck))) as Heditr.
  { rewrite NNC_ctor_m_editr.
    apply unique_strictly_sorted, stable_sort_sorted. }
  repeat split; try done; by apply strictly_sorted_NoDup_keys.
Qed.

(** Three edits of the pair 2-6 and two replacements of 1-7. *)
Example overlays_one_entry_runs :
  NNC_ctor Sample.grid Decks.repeated_edits
  = mkNNC [mkNNCdata 0 8 25] [mkNNCdata 2 6 3] [mkNNCdata 1 7 6]
          (Some (Sample.loc "NNC" 10)) (Some (Sample.loc "EDITNNC" 20))
          (Some (Sample.loc "EDITNNCR" 30)).
Proof. vm_compute. done. Qed.

(** ** The connections are the resolvable base records *)

Section base_records.
Context `{!StdSort} (grid : EclipseGrid).
Implicit Types (rs : list DeckRecord) (l : list NNCdata) (s : NNC).

Lemma load_input_record_entry l r :
  load_input_record grid l r = l ++ option_list (input_entry grid r).
Proof.
  unfold load_input_record, input_entry.
  destruct (make_index_pair grid r) as [[g1 g2]|]; simpl; [done|].
  by rewrite app_nil_r.
Qed.

Lemma load_input_records_entries rs : ∀ l,
  foldl (load_input_record grid) l rs = l ++ omap (input_entry grid) rs.
Proof.
  induction rs as [|r rs IH]; intros l; simpl; [by rewrite app_nil_r|].
  rewrite IH, load_input_record_entry, <-app_assoc.
  by destruct (input_entry grid r).
Qed.

Lemma load_input_keywords_entries kws : ∀ s,
  m_input (foldl (load_input_keyword grid) s kws)
    = m_input s ++ omap (input_entry grid) (mjoin (records <$> kws)).
Proof.
  induction kws as [|kw kws IH]; intros s; simpl; [by rewrite app_nil_r|].
  rewrite IH. simpl.
  by rewrite load_input_records_entries, omap_app, app_assoc.
Qed.

Lemma stage_input_entries deck :
  m_input (stage_input grid deck)
    = sort (omap (input_entry grid) (NNC_records deck)).
Proof.
  unfold stage_input, load_input. simpl.
  by rewrite load_input_keywords_entries.
Qed.
End base_records.

(** X4. The constructor keeps one connection for every NNC record that
    resolves, repeated keys and adjacent pairs included: at merge time
    [m_input] is a rearrangement of the entries of those records, and the
    edits and replacements that follow neither add, drop nor move a
    connection. *)
Theorem connections_are_resolved_base_records `{!StdSort} grid deck :
  m_input (stage_input grid deck)
    ≡ₚ omap (input_entry grid) (NNC_records deck) ∧
  key <$> m_input (NNC_ctor grid deck)
    = key <$> m_input (stage_input grid deck) ∧
  length (m_input (NNC_ctor grid deck))
    = length (omap (make_index_pair grid) (NNC_records deck)).
Proof.
  assert (key <$> m_input (NNC_ctor grid deck)
            = key <$> m_input (stage_input grid deck)) as Hkeys
    by (rewrite NNC_ctor_m_input; apply stage_edit_input_keys).
  split; [|split; [done|]].
  - rewrite stage_input_entries. apply sort_perm.
  - rewrite <-(length_fmap key), Hkeys, length_fmap.
    rewrite stage_input_entries, sort_perm. unfold input_entry.
    induction (NNC_records deck) as [|r rs IH]; simpl; [done|].
    destruct (make_index_pair grid r); simpl; [f_equal|]; exact IH.
Qed.

(** X5. The connections of a key that no surviving edit carries keep
    the values their records gave them. *)
Theorem unedited_connections_keep_their_values `{!StdSort} grid deck K :
  Forall (λ e, key e ≠ K) (surviving_edits grid deck) →
  filter (has_key K) (m_input (NNC_ctor grid deck))
    = filter (has_key K) (m_input (stage_input grid deck)).
Proof.
  intros Hnone. rewrite NNC_ctor_m_input.
  destruct (stage_edit_merge grid deck) as (-> & _ & _).
  apply merge_loop_filter_other. by rewrite sort_perm.
Qed.

Lemma unedited_connections_keep_their_values_witness :
  Forall (λ e, key e ≠ (1, 7))
         (surviving_edits Sample.grid Sample.deck_two_connections) ∧
  filter (has_key (1, 7))
         (m_input (NNC_ctor Sample.grid Sample.deck_two_connections))
    = filter (has_key (1, 7))
             (m_input (stage_input Sample.grid Sample.deck_two_connections)).
Proof.
  assert (Forall (λ e, key e ≠ (1, 7))
            (surviving_edits Sample.grid Sample.deck_two_connections)) as H.
  { assert (surviving_edits Sample.grid Sample.deck_two_connections
              = [mkNNCdata 2 6 4; mkNNCdata 0 8 2]) as -> by (by vm_compute).
    repeat constructor; by intros [=]. }
  split; [exact H|].
  by apply (unedited_connections_keep_their_values
              Sample.grid Sample.deck_two_connections (1, 7)).
Defined.

(** X6. The EDITNNCR keywords of a deck change neither the connections
    nor the locations recorded for the two other categories: the object
    built from the deck agrees on them with the object built from the
    deck without those keywords, which has no replacement at all. *)
Theorem replacements_leave_connections_alone `{!StdSort} grid deck :
  m_input (NNC_ctor grid deck)
    = m_input (NNC_ctor grid (without_EDITNNCR deck)) ∧
  m_nnc_location (NNC_ctor grid deck)
    = m_nnc_location (NNC_ctor grid (without_EDITNNCR deck)) ∧
  m_edit_location (NNC_ctor grid deck)
    = m_edit_location (NNC_ctor grid (without_EDITNNCR deck)) ∧
  m_editr (NNC_ctor grid (without_EDITNNCR deck)) = [].
Proof.
  assert (NNC_ctor grid (without_EDITNNCR deck) = stage_edit grid deck)
    as -> by done.
  split; [apply NNC_ctor_m_input|].
  rewrite NNC_ctor_stages.
  destruct (load_editr_locations grid deck (stage_edit grid deck))
    as (-> & -> & _).
  by destruct (stage_edit_merge grid deck) as (_ & _ & ->).
Qed.

(** ** Several edits of one key *)

Section repeated_edits.
Context (K : Z * Z).
Implicit Types (st : merge_state) (e d : NNCdata) (es : list NNCdata).

Lemma scaled_by_nil (l : list NNCdata) : scaled_by [] l = l.
Proof.
  unfold scaled_by. rewrite <-(list_fmap_id l) at 2.
  apply list_fmap_ext. by intros _ [] _.
Qed.

Lemma scaled_by_cons e es (l : list NNCdata) :
  scaled_by (e :: es) l = scaled_by es (scale (trans e) <$> l).
Proof. unfold scaled_by. by rewrite <-list_fmap_compose. Qed.

(** While some connection has a larger key than [K], every edit of [K]
    finds the iterator inside [m_input]: the whole run of [K] is scaled
    by each of them and none reaches the overlay. *)
Lemma merge_loop_inner_key es : ∀ st,
  sorted_by_key es → merge_inv st →
  filter (has_key K) (ms_input st) ≠ [] →
  Exists (λ k, key_lt K k) (key <$> ms_input st) →
  (ms_current st = length (ms_input st) →
   Forall (λ e, key_lt K (key e)) es) →
  filter (has_key K) (ms_input (foldl merge_step st es))
    = scaled_by (filter (has_key K) es) (filter (has_key K) (ms_input st)) ∧
  filter (has_key K) (ms_edit (foldl merge_step st es))
    = filter (has_key K) (ms_edit st).
Proof.
  induction es as [|e es IH]; intros st Hes Hinv Hsome Hlarger Hend.
  { simpl. by rewrite filter_nil, scaled_by_nil. }
  apply sorted_by_key_cons in Hes as [He Hes]. simpl.
  destruct (merge_step_inv st e Hinv) as [Hinv' Hend'].
  pose proof (merge_step_keys st e) as Hkeys.
  assert (ms_current (merge_step st e) = length (ms_input (merge_step st e)) →
          Forall (λ e', key_lt K (key e')) es) as Hend''.
  { intros Hat. destruct (key_trichotomy K (key e)) as [Hlt|Hle].
    { eapply Forall_impl; [exact He|]. simpl. intros e' He'.
      by eapply key_lt_le_trans. }
    assert (key_le (key e) K) as HeK.
    { destruct Hle as [->|?]; [apply key_le_refl|by apply key_lt_le]. }
    exfalso. destruct (Hend' Hat) as [Hwas|Hall].
    - apply Hend in Hwas. apply Forall_cons in Hwas as [Hwas _].
      by apply (key_lt_not_le _ _ Hwas).
    - rewrite <-Hkeys in Hlarger.
      apply Exists_exists in Hlarger as (k & Hk & HKk).
      apply list_elem_of_fmap in Hk as (d & -> & Hd).
      rewrite Forall_forall in Hall. specialize (Hall d Hd).
      apply (key_lt_not_le _ _ HKk). by eapply key_le_trans. }
  rewrite filter_cons. destruct (decide (has_key K e)) as [HeK|HeK].
  - unfold has_key in HeK. subst K.
    assert (ms_current st ≠ length (ms_input st)) as Hcur.
    { intros Hat. apply Hend in Hat. apply Forall_cons in Hat as [Hat _].
      by apply key_lt_irrefl in Hat. }
    pose proof Hinv as [Hs Hr Hb].
    destruct (sorted_by_key_split (key e) _ Hs)
      as (p & run & q & Hin & Hp & Hrun & Hq).
    assert (filter (has_key (key e)) (ms_input st) = run) as Hfilter
      by (rewrite Hin; by apply filter_has_key_split).
    assert (merge_step st e =
            mkMerge (p ++ (scale (trans e) <$> run) ++ q)
                    (length p + length run) (ms_edit st)) as Hstep.
    { rewrite (merge_step_spec st e p run q) by (done || lia).
      destruct run; [by rewrite Hfilter in Hsome|done]. }
    assert (filter (has_key (key e)) (ms_input (merge_step st e))
              = scale (trans e) <$> run) as Hfilter'.
    { rewrite Hstep. simpl. apply filter_has_key_split; try done.
      by apply Forall_fmap. }
    destruct (IH (merge_step st e)) as [-> ->]; try done.
    + rewrite Hfilter'. intros Hnil. apply fmap_nil_inv in Hnil.
      by rewrite Hfilter, Hnil in Hsome.
    + by rewrite Hkeys.
    + by rewrite Hfilter', Hfilter, scaled_by_cons, Hstep.
  - destruct (merge_step_filter_other K st e) as [Hfi Hfe]; [done|].
    destruct (IH (merge_step st e)) as [-> ->]; try done.
    + by rewrite Hfi.
    + by rewrite Hkeys.
    + by rewrite Hfi, Hfe.
Qed.

(** On an overlay built in key order, an edit of [K] acts on the entry of
    [K] alone. *)
Lemma add_edit_filter_same (edit : list NNCdata) e :
  key e = K → strictly_sorted_by_key edit →
  Forall (λ d, key_le (key d) K) edit →
  filter (has_key K) (add_edit edit e) = add_edit (filter (has_key K) edit) e.
Proof.
  intros HeK Hs. induction Hs as [|x edit Hs IH Hx]; intros Hle.
  { simpl. by rewrite filter_cons_True. }
  apply Forall_cons in Hle as [HxK Hle].
  destruct edit as [|y edit].
  - simpl. destruct (equality x e) eqn:Heq.
    + apply equality_true in Heq.
      rewrite !filter_cons_True, !filter_nil;
        [|unfold has_key; congruence|unfold has_key..].
      * simpl. by rewrite (proj2 (equality_true x e)).
      * change (key (scale (trans e) x)) with (key x). congruence.
    + apply equality_false in Heq.
      rewrite (filter_cons_False _ x) by (unfold has_key; congruence).
      rewrite (filter_cons_False _ x) by (unfold has_key; congruence).
      by rewrite filter_cons_True.
  - assert (key x ≠ K) as HxneK.
    { apply Forall_cons in Hx as [Hxy _]. apply Forall_cons in Hle as [HyK _].
      intros Heq. rewrite Heq in Hxy. by apply (key_lt_not_le _ _ Hxy). }
    change (add_edit (x :: y :: edit) e) with (x :: add_edit (y :: edit) e).
    rewrite !(filter_cons_False _ x) by done. by apply IH.
Qed.

(** An edit of a key without connection is handed to [add_edit], and
    [m_input] stays as it is. *)
Lemma merge_step_absent st e :
  merge_inv st → filter (has_key (key e)) (ms_input st) = [] →
  ms_input (merge_step st e) = ms_input st ∧
  ms_edit (merge_step st e) = add_edit (ms_edit st) e.
Proof.
  intros Hinv Hnone.
  destruct (decide (ms_current st = length (ms_input st))) as [Hat|Hat].
  { by rewrite merge_step_at_end. }
  pose proof Hinv as [Hs Hr Hb].
  destruct (sorted_by_key_split (key e) _ Hs)
    as (p & run & q & Hin & Hp & Hrun & Hq).
  rewrite Hin, filter_has_key_split in Hnone by done. subst run.
  rewrite (merge_step_spec st e p [] q) by (done || lia).
  by rewrite Hin.
Qed.

(** Without a connection of key [K] the overlay entry of [K] is what
    [add_edit] builds from the edits of [K] alone. *)
Lemma merge_loop_absent_key es : ∀ st,
  sorted_by_key es → merge_inv st →
  filter (has_key K) (ms_input st) = [] →
  strictly_sorted_by_key (ms_edit st) →
  Forall (λ d, Forall (λ e, key_le (key d) (key e)) es) (ms_edit st) →
  filter (has_key K) (ms_edit (foldl merge_step st es))
    = foldl add_edit (filter (has_key K) (ms_edit st)) (filter (has_key K) es).
Proof.
  induction es as [|e es IH]; intros st Hes Hinv Hnone Hs Hle; [done|].
  apply sorted_by_key_cons in Hes as [He Hes]. simpl.
  destruct (merge_step_inv st e Hinv) as [Hinv' _].
  assert (Forall (λ d, key_le (key d) (key e)) (ms_edit st)) as Hle_e.
  { eapply Forall_impl; [exact Hle|]. simpl. intros d Hd.
    by apply Forall_cons in Hd as [? _]. }
  assert (Forall (λ d, Forall (λ e', key_le (key d) (key e')) es)
            (ms_edit st)) as Hle_es.
  { eapply Forall_impl; [exact Hle|]. simpl. intros d Hd.
    by apply Forall_cons in Hd as [_ ?]. }
  assert (strictly_sorted_by_key (ms_edit (merge_step st e)) ∧
          Forall (λ d, Forall (λ e', key_le (key d) (key e')) es)
                 (ms_edit (merge_step st e))) as [Hs' Hle'].
  { destruct (merge_step_edit_cases st e) as [-> | ->]; [done|]. split.
    - by apply add_edit_strictly_sorted.
    - by apply (add_edit_Forall_key
                  (λ k, Forall (λ e', key_le k (key e')) es)). }
  rewrite filter_cons. destruct (decide (has_key K e)) as [HeK|HeK].
  - unfold has_key in HeK.
    destruct (merge_step_absent st e Hinv) as [Hin Hedit];
      [by rewrite HeK|].
    rewrite IH by (done || by rewrite Hin). simpl.
    rewrite Hedit, add_edit_filter_same; try done.
    by rewrite <-HeK.
  - destruct (merge_step_filter_other K st e) as [Hfi Hfe]; [done|].
    rewrite IH by (done || by rewrite Hfi). by rewrite Hfe.
Qed.

Lemma foldl_add_edit_accumulate es : ∀ b,
  key b = K → Forall (has_key K) es →
  foldl add_edit [b] es
    = [mkNNCdata (cell1 b) (cell2 b) (multiplied_by es (trans b))].
Proof.
  induction es as [|e es IH]; intros b Hb Hes; simpl; [by destruct b|].
  apply Forall_cons in Hes as [He Hes].
  rewrite (proj2 (equality_true b e)) by (unfold has_key in He; congruence).
  by rewrite IH.
Qed.

Lemma foldl_add_edit_accumulated es :
  Forall (has_key K) es → foldl add_edit [] es = accumulated es.
Proof.
  destruct es as [|e es]; [done|]. intros [He Hes]%Forall_cons. simpl.
  by apply foldl_add_edit_accumulate.
Qed.

Lemma filter_has_key_filter (P : NNCdata → Prop)
    `{!∀ d, Decision (P d)} (l : list NNCdata) :
  (∀ d, key d = K → P d) →
  filter (has_key K) (filter P l) = filter (has_key K) l.
Proof.
  intros HP. induction l as [|x l IH]; [done|].
  rewrite (filter_cons P). case_decide as Hx.
  - by rewrite !filter_cons, IH.
  - rewrite IH, filter_cons_False; [done|]. intros Hk. by apply Hx, HP.
Qed.
End repeated_edits.

(** X7. Let [K] have connections at merge time and let some connection
    have a larger key.  Then every edit of [K] that the EDITNNC records
    give, however many there are, is applied in place: after construction
    each connection of [K] has its cells as they were and the value it
    had at merge time multiplied in turn by the multipliers of those
    records, each once, in the order in which [std::sort] left their
    entries, whatever implementation it is; the multiplicative overlay
    has no entry for [K]. *)
Theorem edits_of_inner_key_applied_in_place `{!StdSort} grid deck K :
  filter (has_key K) (m_input (stage_input grid deck)) ≠ [] →
  Exists (λ k, key_lt K k) (key <$> m_input (stage_input grid deck)) →
  filter (has_key K) (m_input (NNC_ctor grid deck))
    = scaled_by (filter (has_key K) (sorted_edits grid deck))
                (filter (has_key K) (m_input (stage_input grid deck))) ∧
  filter (has_key K) (m_edit (NNC_ctor grid deck)) = [] ∧
  filter (has_key K) (sorted_edits grid deck)
    ≡ₚ filter (has_key K) (omap (edit_entry grid) (EDITNNC_records deck)).
Proof.
  intros Hsome Hlarger.
  cut (filter (has_key K) (m_input (NNC_ctor grid deck))
         = scaled_by (filter (has_key K) (sorted_edits grid deck))
             (filter (has_key K) (m_input (stage_input grid deck))) ∧
       filter (has_key K) (m_edit (NNC_ctor grid deck)) = []).
  { intros [Hin Hedit]. split; [done|]. split; [done|].
    apply sort_filter_perm. }
  unfold sorted_edits. rewrite <-surviving_edits_entries.
  destruct (stage_edit_merge grid deck) as (Hin & Hedit & _).
  destruct (merge_loop_inner_key K (sort (surviving_edits grid deck))
              (mkMerge (m_input (stage_input grid deck)) 0 []))
    as [Hscaled Hnone]; try done.
  - apply sort_sorted.
  - apply merge_inv_start, stage_input_sorted.
  - cbn [ms_current ms_input]. intros Hnil. symmetry in Hnil.
    apply nil_length_inv in Hnil. by rewrite Hnil in Hsome.
  - simpl in Hscaled, Hnone. split.
    + by rewrite NNC_ctor_m_input, Hin.
    + apply filter_has_key_none. rewrite NNC_ctor_m_edit.
      apply Forall_forall. intros d [_ Hd]%list_elem_of_filter.
      revert d Hd. apply Forall_forall, filter_has_key_none.
      by rewrite Hedit.
Qed.

Lemma edits_of_inner_key_applied_in_place_witness :
  filter (has_key (0, 8))
         (m_input (stage_input Sample.grid Sample.deck_two_edits_inner))
    ≠ [] ∧
  Exists (λ k, key_lt (0, 8) k)
         (key <$> m_input (stage_input Sample.grid
                             Sample.deck_two_edits_inner)) ∧
  filter (has_key (0, 8))
         (m_input (NNC_ctor Sample.grid Sample.deck_two_edits_inner))
    = scaled_by
        (filter (has_key (0, 8))
                (sorted_edits Sample.grid Sample.deck_two_edits_inner))
        (filter (has_key (0, 8))
                (m_input (stage_input Sample.grid
                            Sample.deck_two_edits_inner))) ∧
  filter (has_key (0, 8))
         (m_edit (NNC_ctor Sample.grid Sample.deck_two_edits_inner)) = [] ∧
  filter (has_key (0, 8))
         (sorted_edits Sample.grid Sample.deck_two_edits_inner)
    ≡ₚ filter (has_key (0, 8))
         (omap (edit_entry Sample.grid)
               (EDITNNC_records Sample.deck_two_edits_inner)).
Proof.
  assert (Exists (λ k, key_lt (0, 8) k)
            (key <$> m_input (stage_input Sample.grid
                                Sample.deck_two_edits_inner))) as Hlarger.
  { assert (key <$> m_input (stage_input Sample.grid
                               Sample.deck_two_edits_inner)
              = [(0, 8); (1, 7)]) as -> by (by vm_compute).
    apply Exists_cons_tl, Exists_cons_hd. unfold key_lt. simpl. lia. }
  split; [by vm_compute|]. split; [exact Hlarger|].
  apply (edits_of_inner_key_applied_in_place
           Sample.grid Sample.deck_two_edits_inner (0, 8));
    [by vm_compute|exact Hlarger].
Defined.

(** X8. Let [K] have no connection at merge time and no replacement.
    After construction the multiplicative overlay holds for [K] exactly
    what the edits of [K] that the EDITNNC records give accumulate to:
    nothing when there is none, else one entry of [K] whose value is the
    first multiplier multiplied in turn by each later one, each record
    counting once, first and later being the order in which [std::sort]
    left the entries, whatever implementation it is. *)
Theorem edits_without_connection_accumulate `{!StdSort} grid deck K :
  filter (has_key K) (m_input (stage_input grid deck)) = [] →
  K ∉ key <$> m_editr (NNC_ctor grid deck) →
  filter (has_key K) (m_edit (NNC_ctor grid deck))
    = accumulated (filter (has_key K) (sorted_edits grid deck)) ∧
  filter (has_key K) (sorted_edits grid deck)
    ≡ₚ filter (has_key K) (omap (edit_entry grid) (EDITNNC_records deck)).
Proof.
  intros Hnone Hfree. split; [|apply sort_filter_perm].
  unfold sorted_edits. rewrite <-surviving_edits_entries.
  rewrite NNC_ctor_m_edit, filter_has_key_filter
    by (by intros d ->).
  destruct (stage_edit_merge grid deck) as (_ & -> & _).
  rewrite merge_loop_absent_key; try done.
  - apply (foldl_add_edit_accumulated K). apply Forall_forall.
    by intros e [He _]%list_elem_of_filter.
  - apply sort_sorted.
  - apply merge_inv_start, stage_input_sorted.
  - constructor.
Qed.

Lemma edits_without_connection_accumulate_witness :
  filter (has_key (2, 6))
         (m_input (stage_input Sample.grid Decks.repeated_edits)) = [] ∧
  ((2, 6) ∉ key <$> m_editr (NNC_ctor Sample.grid Decks.repeated_edits)) ∧
  filter (has_key (2, 6))
         (m_edit (NNC_ctor Sample.grid Decks.repeated_edits))
    = accumulated
        (filter (has_key (2, 6))
                (sorted_edits Sample.grid Decks.repeated_edits)) ∧
  filter (has_key (2, 6)) (sorted_edits Sample.grid Decks.repeated_edits)
    ≡ₚ filter (has_key (2, 6))
         (omap (edit_entry Sample.grid)
               (EDITNNC_records Decks.repeated_edits)).
Proof.
  assert ((2, 6) ∉ key <$> m_editr (NNC_ctor Sample.grid
                                      Decks.repeated_edits)) as Hfree.
  { assert (key <$> m_editr (NNC_ctor Sample.grid Decks.repeated_edits)
              = [(1, 7)]) as -> by (by vm_compute).
    by intros [=]%list_elem_of_singleton. }
  split; [by vm_compute|]. split; [exact Hfree|].
  apply (edits_without_connection_accumulate
           Sample.grid Decks.repeated_edits (2, 6));
    [by vm_compute|exact Hfree].
Defined.

(** The three edits 2, 3 and 0.5 of the pair 2-6 leave the one entry of
    value 3. *)
Example accumulated_runs :
  accumulated
    (filter (has_key (2, 6))
            (sorted_edits Sample.grid Decks.repeated_edits))
    = [mkNNCdata 2 6 3].
Proof. by vm_compute. Qed.

(** The order in which [std::sort] leaves the edits of one key shows in
    the values: with the three edits in deck order the product overflows,
    in the reverse order it does not. *)
Example order_of_equal_edits_shows :
  @NNC_ctor insertion_sort Sample.grid Decks.overflowing_edits
    = mkNNC [mkNNCdata 0 8 infinity; mkNNCdata 1 7 1]
            [mkNNCdata 2 6 infinity] []
            (Some (Sample.loc "NNC" 10)) (Some (Sample.loc "EDITNNC" 20))
            None ∧
  @NNC_ctor reversing_sort Sample.grid Decks.overflowing_edits
    = mkNNC [mkNNCdata 0 8 0x1p+600; mkNNCdata 1 7 1]
            [mkNNCdata 2 6 0x1p+600] []
            (Some (Sample.loc "NNC" 10)) (Some (Sample.loc "EDITNNC" 20))
            None.
Proof. by vm_compute. Qed.

(** ** Records that make no difference *)

Section deck_rewriting.
Context (grid : EclipseGrid).
Implicit Types (r : DeckRecord) (kw : DeckKeyword) (l : list NNCdata).

Lemma foldl_fmap_same {A B} (f : A → B → A) (g : B → B) (bs : list B) :
  (∀ a b, f a (g b) = f a b) → ∀ a, foldl f a (g <$> bs) = foldl f a bs.
Proof.
  intros Hfg. induction bs as [|b bs IH]; intros a; simpl; [done|].
  by rewrite Hfg, IH.
Qed.

(** An edit record of multiplier 1 appends nothing. *)
Lemma load_edit_records_drop_identity rs : ∀ l,
  foldl (load_edit_record grid) l
        (filter (λ r, (item6_double r =? 1)%float = false) rs)
    = foldl (load_edit_record grid) l rs.
Proof.
  induction rs as [|r rs IH]; intros l; [done|].
  rewrite filter_cons. case_decide as Hr; simpl; [by rewrite IH|].
  rewrite IH. f_equal. unfold load_edit_record.
  by destruct (item6_double r =? 1)%float.
Qed.

Lemma collect_edit_drop_identity deck loc :
  collect_edit grid (drop_identity_edits deck) loc
    = collect_edit grid deck loc.
Proof.
  unfold collect_edit, drop_identity_edits. simpl.
  generalize (@nil NNCdata, loc).
  induction (getKeywordList_EDITNNC deck) as [|kw kws IH]; intros st;
    simpl; [done|].
  rewrite IH. f_equal. unfold load_edit_keyword. simpl.
  by rewrite load_edit_records_drop_identity.
Qed.

(** The resolver does not care which triple of a record comes first. *)
Lemma make_index_pair_swap r :
  make_index_pair grid (swap_triples r) = make_index_pair grid r.
Proof.
  unfold make_index_pair.
  change (global_index grid (swap_triples r) 0)
    with (global_index grid r 3).
  change (global_index grid (swap_triples r) 3)
    with (global_index grid r 0).
  destruct (global_index grid r 0) as [a|], (global_index grid r 3) as [b|];
    try done.
  destruct (Z.ltb_spec a b), (Z.ltb_spec b a); try done; try lia.
  f_equal. f_equal; lia.
Qed.

Lemma make_index_pair_swap_where sel r :
  make_index_pair grid (swap_where sel r) = make_index_pair grid r.
Proof.
  unfold swap_where. destruct (sel r); [apply make_index_pair_swap|done].
Qed.

Lemma item6_swap_where sel r :
  item6_double (swap_where sel r) = item6_double r ∧
  item6_SIDouble (swap_where sel r) = item6_SIDouble r.
Proof. unfold swap_where. by destruct (sel r). Qed.

Lemma load_records_swap_where sel r l :
  load_input_record grid l (swap_where sel r) = load_input_record grid l r ∧
  load_edit_record grid l (swap_where sel r) = load_edit_record grid l r ∧
  load_editr_record grid l (swap_where sel r) = load_editr_record grid l r.
Proof.
  unfold load_input_record, load_edit_record, load_editr_record.
  destruct (item6_swap_where sel r) as [-> ->].
  by rewrite make_index_pair_swap_where.
Qed.

Lemma load_keywords_swap_where sel kw :
  (∀ s, load_input_keyword grid s
          (keyword_map_records (fmap (swap_where sel)) kw)
        = load_input_keyword grid s kw) ∧
  (∀ st, load_edit_keyword grid st
           (keyword_map_records (fmap (swap_where sel)) kw)
         = load_edit_keyword grid st kw) ∧
  (∀ st, load_editr_keyword grid st
           (keyword_map_records (fmap (swap_where sel)) kw)
         = load_editr_keyword grid st kw).
Proof.
  unfold load_input_keyword, load_edit_keyword, load_editr_keyword.
  simpl. repeat split; intros st.
  - rewrite foldl_fmap_same; [done|].
    intros a b. apply load_records_swap_where.
  - rewrite foldl_fmap_same; [done|].
    intros a b. apply load_records_swap_where.
  - destruct (records kw) as [|r rs]; [done|].
    change (swap_where sel <$> r :: rs)
      with (swap_where sel r :: (swap_where sel <$> rs)).
    cbn [foldl].
    rewrite foldl_fmap_same by (intros a b; apply load_records_swap_where).
    by destruct (load_records_swap_where sel r st.1) as (_ & _ & ->).
Qed.
End deck_rewriting.

(** X9. An EDITNNC record whose multiplier equals 1 makes no difference
    to the object: the deck without such records builds the same object,
    locations included. *)
Theorem identity_edits_make_no_difference `{!StdSort} grid deck :
  NNC_ctor grid (drop_identity_edits deck) = NNC_ctor grid deck.
Proof.
  unfold NNC_ctor.
  change (load_input grid (drop_identity_edits deck) NNC_default)
    with (load_input grid deck NNC_default).
  generalize (load_input grid deck NNC_default). intros s.
  assert (load_edit grid (drop_identity_edits deck) s = load_edit grid deck s)
    as ->; [|done].
  unfold load_edit. by rewrite collect_edit_drop_identity.
Qed.

(** X10. Exchanging the two coordinate triples of any records of the
    deck makes no difference to the object the constructor builds. *)
Theorem triple_order_makes_no_difference `{!StdSort} grid sel deck :
  NNC_ctor grid (deck_map_records (swap_where sel) deck) = NNC_ctor grid deck.
Proof.
  assert (∀ s, load_input grid (deck_map_records (swap_where sel) deck) s
               = load_input grid deck s) as Hinput.
  { intros s. unfold load_input, deck_map_records. simpl.
    by rewrite foldl_fmap_same
      by (intros a kw; apply load_keywords_swap_where). }
  assert (∀ s, load_edit grid (deck_map_records (swap_where sel) deck) s
               = load_edit grid deck s) as Hedit.
  { intros s. unfold load_edit, collect_edit, deck_map_records. simpl.
    by rewrite foldl_fmap_same
      by (intros a kw; apply load_keywords_swap_where). }
  assert (∀ s, load_editr grid (deck_map_records (swap_where sel) deck) s
               = load_editr grid deck s) as Heditr.
  { intros s. unfold load_editr, collect_editr, deck_map_records. simpl.
    rewrite foldl_fmap_same
      by (intros a kw; apply load_keywords_swap_where).
    by destruct (getKeywordList_EDITNNCR deck). }
  unfold NNC_ctor. by rewrite Hinput, Hedit, Heditr.
Qed.

(** The identity edits of 0-8 and 2-6 dropped, and every record turned
    round. *)
Example deck_rewriting_runs :
  NNC_ctor Sample.grid Decks.mixed
    = mkNNC [mkNNCdata 0 8 5; mkNNCdata 1 7 14] [] [mkNNCdata 2 6 4]
            (Some (Sample.loc "NNC" 10)) (Some (Sample.loc "EDITNNC" 20))
            (Some (Sample.loc "EDITNNCR" 30)) ∧
  NNC_ctor Sample.grid (drop_identity_edits Decks.mixed)
    = NNC_ctor Sample.grid Decks.mixed ∧
  NNC_ctor Sample.grid (deck_map_records swap_triples Decks.mixed)
    = NNC_ctor Sample.grid Decks.mixed.
Proof. by vm_compute. Qed.

(** ** More on addNNC *)

Section addNNC_more.
Implicit Types (l p q : list NNCdata) (x y : NNCdata) (K : Z * Z).

Lemma insert_at_perm pos x l : insert_at pos x l ≡ₚ x :: l.
Proof.
  unfold insert_at. rewrite <-Permutation_middle.
  by rewrite take_drop.
Qed.

Lemma insert_at_filter_other K pos x l :
  key x ≠ K → filter (has_key K) (insert_at pos x l) = filter (has_key K) l.
Proof.
  intros Hne. unfold insert_at.
  rewrite filter_app, filter_cons_False, <-filter_app by done.
  by rewrite take_drop.
Qed.

(** Around the key of [x]: the search lands behind the smaller entries,
    in front of the entries that are not smaller. *)
Lemma insert_at_lower_bound_app p q x :
  sorted_by_key (p ++ q) →
  Forall (λ d, key_lt (key d) (key x)) p →
  Forall (λ d, key_le (key x) (key d)) q →
  insert_at (lower_bound (p ++ q) x) x (p ++ q) = p ++ x :: q.
Proof.
  intros Hs Hp Hq. rewrite lower_bound_app by done. unfold insert_at.
  by rewrite take_app_length, drop_app_length.
Qed.

Lemma Forall_key_le_of_run_and_above K run q :
  Forall (has_key K) run → Forall (λ d, key_lt K (key d)) q →
  Forall (λ d, key_le K (key d)) (run ++ q).
Proof.
  intros Hrun Hq. apply Forall_app. split.
  - eapply Forall_impl; [exact Hrun|]. unfold has_key. simpl.
    intros d <-. apply key_le_refl.
  - eapply Forall_impl; [exact Hq|]. simpl. intros d. apply key_lt_le.
Qed.

(** In a sorted vector the new entry goes in front of the entries of its
    key. *)
Lemma insert_at_lower_bound_filter_same x l :
  sorted_by_key l →
  filter (has_key (key x)) (insert_at (lower_bound l x) x l)
    = x :: filter (has_key (key x)) l.
Proof.
  intros Hs.
  destruct (sorted_by_key_split (key x) l Hs)
    as (p & run & q & -> & Hp & Hrun & Hq).
  rewrite insert_at_lower_bound_app;
    [|done..|by apply Forall_key_le_of_run_and_above].
  rewrite (filter_has_key_split _ p run q) by done.
  rewrite filter_app, (filter_has_key_lt _ p), filter_cons_True by done.
  rewrite filter_app, (filter_has_key_all _ run), (filter_has_key_gt _ q)
    by done.
  by rewrite app_nil_r.
Qed.

(** Two entries of different keys can be inserted in either order. *)
Lemma insert_at_lower_bound_comm_lt x y l :
  sorted_by_key l → key_lt (key x) (key y) →
  insert_at (lower_bound (insert_at (lower_bound l x) x l) y) y
            (insert_at (lower_bound l x) x l)
  = insert_at (lower_bound (insert_at (lower_bound l y) y l) x) x
              (insert_at (lower_bound l y) y l).
Proof.
  intros Hs Hxy.
  pose proof (insert_at_lower_bound_sorted l x Hs) as Hsx.
  pose proof (insert_at_lower_bound_sorted l y Hs) as Hsy.
  destruct (sorted_by_key_split (key x) l Hs)
    as (p & r & q & -> & Hp & Hr & Hq).
  assert (sorted_by_key q) as Hsq.
  { apply StronglySorted_app in Hs as (_ & _ & Hs).
    by apply StronglySorted_app in Hs as (_ & _ & Hs). }
  destruct (sorted_by_key_split (key y) q Hsq)
    as (q1 & q2 & q3 & -> & Hq1 & Hq2 & Hq3).
  apply Forall_app in Hq as [Hq1x Hq23x].
  assert (Forall (λ d, key_lt (key d) (key y)) (p ++ r)) as Hpr.
  { apply Forall_app. split.
    - eapply Forall_impl; [exact Hp|]. simpl. intros d Hd.
      by eapply key_lt_trans'.
    - eapply Forall_impl; [exact Hr|]. unfold has_key. simpl.
      by intros d ->. }
  apply key_lt_le in Hxy as Hxy'.
  pose proof (Forall_key_le_of_run_and_above _ _ _ Hq2 Hq3) as Hq23.
  apply Forall_app in Hpr as [Hpy Hry].
  assert (Forall (λ d, key_le (key x) (key d)) (r ++ q1 ++ q2 ++ q3)) as Hrq.
  { apply Forall_key_le_of_run_and_above; [done|]. by apply Forall_app. }
  assert (insert_at (lower_bound (p ++ r ++ q1 ++ q2 ++ q3) x) x
                    (p ++ r ++ q1 ++ q2 ++ q3)
            = p ++ x :: r ++ q1 ++ q2 ++ q3) as Ex
    by by apply insert_at_lower_bound_app.
  assert (insert_at (lower_bound (p ++ r ++ q1 ++ q2 ++ q3) y) y
                    (p ++ r ++ q1 ++ q2 ++ q3)
            = p ++ r ++ q1 ++ y :: q2 ++ q3) as Ey.
  { rewrite !app_assoc, <-(app_assoc _ q2 q3) in Hs |- *.
    rewrite insert_at_lower_bound_app;
      [by rewrite <-!app_assoc|done| |done].
    by repeat (apply Forall_app; split). }
  rewrite Ex in Hsx |- *. rewrite Ey in Hsy |- *.
  assert (insert_at (lower_bound (p ++ x :: r ++ q1 ++ q2 ++ q3) y) y
                    (p ++ x :: r ++ q1 ++ q2 ++ q3)
            = p ++ x :: r ++ q1 ++ y :: q2 ++ q3) as ->.
  { replace (p ++ x :: r ++ q1 ++ q2 ++ q3)
      with ((p ++ x :: r ++ q1) ++ (q2 ++ q3)) in Hsx |- *
      by (by rewrite <-?app_assoc, <-?app_comm_cons, <-?app_assoc).
    rewrite insert_at_lower_bound_app;
      [by rewrite <-?app_assoc, <-?app_comm_cons, <-?app_assoc|done| |done].
    apply Forall_app. split; [done|]. constructor; [done|].
    by apply Forall_app. }
  rewrite insert_at_lower_bound_app; [done|done|done|].
  apply Forall_key_le_of_run_and_above; [done|].
  apply Forall_app. split; [done|]. by constructor.
Qed.

Lemma Forall_take_1_nonempty l : take 1 l ≠ [] ↔ l ≠ [].
Proof. by destruct l. Qed.

Lemma elem_of_keys_filter K l :
  K ∈ key <$> l ↔ filter (has_key K) l ≠ [].
Proof.
  split.
  - intros (d & -> & Hd)%list_elem_of_fmap Hnil.
    apply (filter_nil_not_elem_of _ _ d) in Hnil; done.
  - intros Hne. destruct (filter (has_key K) l) as [|d f] eqn:Hf; [done|].
    assert (d ∈ filter (has_key K) l) as [Hk Hd]%list_elem_of_filter
      by (rewrite Hf; apply list_elem_of_here).
    apply list_elem_of_fmap. by exists d.
Qed.
End addNNC_more.

(** X11. Whatever the state, [addNNC] adds exactly the one entry of the
    canonical pair and the given value to the connections: the new vector
    is a rearrangement of that entry and the old vector, and the entries
    of every other key stand as they stood, in their order. *)
Theorem addNNC_adds_one_entry s c1 c2 t :
  m_input (addNNC s c1 c2 t).2
    ≡ₚ mkNNCdata (Z.min c1 c2) (Z.max c1 c2) t :: m_input s ∧
  ∀ K, K ≠ (Z.min c1 c2, Z.max c1 c2) →
       filter (has_key K) (m_input (addNNC s c1 c2 t).2)
         = filter (has_key K) (m_input s).
Proof.
  rewrite addNNC_canonical. simpl. split; [apply insert_at_perm|].
  intros K HK. apply insert_at_filter_other. unfold key. simpl. congruence.
Qed.

(** X12. On sorted connections [addNNC] puts the new entry in front of
    the entries that already carry its key: of two connections of one
    pair the one added last comes first. *)
Theorem addNNC_new_entry_first_of_its_key s c1 c2 t :
  sorted_by_key (m_input s) →
  filter (has_key (Z.min c1 c2, Z.max c1 c2)) (m_input (addNNC s c1 c2 t).2)
    = mkNNCdata (Z.min c1 c2) (Z.max c1 c2) t
      :: filter (has_key (Z.min c1 c2, Z.max c1 c2)) (m_input s).
Proof.
  intros Hs. rewrite addNNC_canonical. simpl.
  by apply (insert_at_lower_bound_filter_same
              (mkNNCdata (Z.min c1 c2) (Z.max c1 c2) t)).
Qed.

Lemma addNNC_new_entry_first_of_its_key_witness :
  sorted_by_key
    (m_input (NNC_ctor Sample.grid Sample.deck_two_connections)) ∧
  filter (has_key (Z.min 8 0, Z.max 8 0))
         (m_input (addNNC (NNC_ctor Sample.grid Sample.deck_two_connections)
                          8 0 1).2)
    = mkNNCdata (Z.min 8 0) (Z.max 8 0) 1
      :: filter (has_key (Z.min 8 0, Z.max 8 0))
                (m_input (NNC_ctor Sample.grid Sample.deck_two_connections)).
Proof.
  split; [apply NNC_ctor_sorted|].
  apply (addNNC_new_entry_first_of_its_key
           (NNC_ctor Sample.grid Sample.deck_two_connections) 8 0 1).
  apply NNC_ctor_sorted.
Defined.

(** X13. On sorted connections two [addNNC] calls for different pairs
    give the same state in either order. *)
Theorem addNNC_calls_commute s a1 b1 t1 a2 b2 t2 :
  sorted_by_key (m_input s) →
  (Z.min a1 b1, Z.max a1 b1) ≠ (Z.min a2 b2, Z.max a2 b2) →
  (addNNC (addNNC s a1 b1 t1).2 a2 b2 t2).2
    = (addNNC (addNNC s a2 b2 t2).2 a1 b1 t1).2.
Proof.
  intros Hs Hne. rewrite !addNNC_canonical. simpl. unfold set_m_input. simpl.
  f_equal.
  destruct (key_trichotomy (Z.min a1 b1, Z.max a1 b1)
                           (Z.min a2 b2, Z.max a2 b2)) as [Hlt|[Heq|Hgt]].
  - by apply (insert_at_lower_bound_comm_lt
                (mkNNCdata (Z.min a1 b1) (Z.max a1 b1) t1)
                (mkNNCdata (Z.min a2 b2) (Z.max a2 b2) t2)).
  - done.
  - symmetry.
    by apply (insert_at_lower_bound_comm_lt
                (mkNNCdata (Z.min a2 b2) (Z.max a2 b2) t2)
                (mkNNCdata (Z.min a1 b1) (Z.max a1 b1) t1)).
Qed.

Lemma addNNC_calls_commute_witness :
  sorted_by_key
    (m_input (NNC_ctor Sample.grid Sample.deck_two_connections)) ∧
  (Z.min 7 1, Z.max 7 1) ≠ (Z.min 0 8, Z.max 0 8) ∧
  (addNNC (addNNC (NNC_ctor Sample.grid Sample.deck_two_connections)
                  7 1 2).2 0 8 3).2
    = (addNNC (addNNC (NNC_ctor Sample.grid Sample.deck_two_connections)
                      0 8 3).2 7 1 2).2.
Proof.
  split; [apply NNC_ctor_sorted|]. split; [by vm_compute|].
  apply (addNNC_calls_commute
           (NNC_ctor Sample.grid Sample.deck_two_connections) 7 1 2 0 8 3);
    [apply NNC_ctor_sorted|by vm_compute].
Defined.

(** Two calls for the same pair do not commute: the later entry comes
    first. *)
Example addNNC_same_pair_runs :
  m_input (addNNC (addNNC NNC_default 0 8 1).2 8 0 2).2
    = [mkNNCdata 0 8 2; mkNNCdata 0 8 1] ∧
  m_input (addNNC (addNNC NNC_default 8 0 2).2 0 8 1).2
    = [mkNNCdata 0 8 1; mkNNCdata 0 8 2].
Proof. by vm_compute. Qed.

(** ** The keys of the replacement overlay *)

(** X14. After construction the replacement overlay has an entry for the
    key [K] if and only if [K] is not classified adjacent and some record
    of an EDITNNCR keyword resolves to [K]. *)
Theorem replacement_overlay_keys `{!StdSort} grid deck K :
  K ∈ key <$> m_editr (NNC_ctor grid deck) ↔
  is_neighbor grid K.1 K.2 = false ∧
  ∃ r, r ∈ EDITNNCR_records deck ∧ make_index_pair grid r = Some K.
Proof.
  rewrite elem_of_keys_filter, NNC_ctor_m_editr.
  rewrite unique_filter by apply stable_sort_sorted.
  rewrite stable_sort_filter, Forall_take_1_nonempty.
  assert (is_neighbor grid K.1 K.2 = false →
          filter (has_key K) (surviving_editr grid deck) ≠ [] ↔
          ∃ r, r ∈ EDITNNCR_records deck ∧ make_index_pair grid r = Some K)
    as Hiff.
  { intros Hn. rewrite surviving_editr_filter by done. split.
    - intros Hne.
      destruct (filter (resolves_to grid K) (EDITNNCR_records deck))
        as [|r rs] eqn:Hf; [done|].
      assert (r ∈ filter (resolves_to grid K) (EDITNNCR_records deck))
        as [Hr Hin]%list_elem_of_filter
        by (rewrite Hf; apply list_elem_of_here).
      by exists r.
    - intros (r & Hin & Hr) Hnil.
      apply (f_equal length) in Hnil.
      rewrite length_reverse, length_fmap in Hnil.
      apply nil_length_inv in Hnil.
      exact (filter_nil_not_elem_of (resolves_to grid K)
               (EDITNNCR_records deck) r Hnil Hr Hin). }
  split.
  - intros Hne.
    assert (is_neighbor grid K.1 K.2 = false) as Hn.
    { destruct (filter (has_key K) (surviving_editr grid deck))
        as [|d f] eqn:Hf; [done|].
      assert (d ∈ filter (has_key K) (surviving_editr grid deck))
        as [Hk Hd]%list_elem_of_filter
        by (rewrite Hf; apply list_elem_of_here).
      pose proof (surviving_editr_overlay grid deck) as Hall.
      rewrite Forall_forall in Hall. destruct (Hall d Hd) as [_ Hn].
      unfold has_key in Hk. by rewrite Hk in Hn. }
    split; [done|]. by apply Hiff.
  - intros [Hn Hr]. by apply Hiff.
Qed.
